(** * server-utils: pagination, object utilities, URL building, validation

    A shallow embedding of the helper functions of the package and the
    properties its documentation states about them.

    Conventions of the embedding.
    - A TypeScript [number] that carries a page, a limit, a count or an
      array index is an integer ([Z]); fractional and infinite values are
      outside the embedding, and a division is read for a divisor other
      than zero.  Where a caller hands a number in (the query and the
      configuration of [generateWhereClause], the values of an object) it
      is an integer or [NaN].
    - An optional property or parameter is an [option]; [None] is an absent
      (undefined) one.  [a ?? b] is [default b a].
    - A plain object used as a mapping is a [gmap string _]; objects that
      are created or updated by a function live in a [heap] and are named
      by their location.
    - A [for] loop that counts from a bound to a bound is a fold whose
      number of rounds is the distance between the bounds. *)

From Stdlib Require Import ZArith List Bool Lia.
From stdpp Require Import base option list gmap strings pretty.

Local Open Scope Z_scope.

(** * src/pagination *)

Module Pagination.

(** ** types.ts *)

Inductive SortDirection := asc | desc.

#[global] Instance SortDirection_eq_dec : EqDecision SortDirection.
Proof. solve_decision. Defined.

(** A [number] a caller hands in: an integer or [NaN]. *)
Inductive number := NaN | Num (z : Z).

#[global] Instance number_eq_dec : EqDecision number.
Proof. solve_decision. Defined.

Record PaginationQuery := {
  q_page : option number;
  q_limit : option number;
  q_search : option string;
  q_sortBy : option string;
  q_sortOrder : option SortDirection;
}.

Record DefaultSort := {
  key : string;
  value : SortDirection;
}.

Record WhereClauseResult (T : Type) := {
  where_ : T;
  orderBy : gmap string SortDirection;
  page : number;
  skip : number;
  limit : number;
}.
Arguments where_ {T} _.
Arguments orderBy {T} _.
Arguments page {T} _.
Arguments skip {T} _.
Arguments limit {T} _.

Record GeneratePaginationParams := {
  p_total : Z;
  p_page : Z;
  p_limit : Z;
}.

Record PaginationMeta := {
  total : Z;
  currentPage : Z;
  pageSize : Z;
  totalPages : Z;
  hasNextPage : bool;
  hasPreviousPage : bool;
}.

(** A configuration as the function finds it: the type says that every
    field is a number, and a spread of a [Partial] configuration can leave
    [undefined] in one, which is [None] here. *)
Record PaginationConfig := {
  defaultLimit : option number;
  maxLimit : option number;
  minLimit : option number;
  defaultPage : option number;
}.

(** A field of a [Partial<PaginationConfig>]: missing, there with the
    value [undefined], or there with a number. *)
Inductive PartialField :=
  | Missing
  | Undefined
  | Given (n : number).

Record PartialPaginationConfig := {
  defaultLimit_opt : PartialField;
  maxLimit_opt : PartialField;
  minLimit_opt : PartialField;
  defaultPage_opt : PartialField;
}.

Definition DEFAULT_PAGINATION_CONFIG : PaginationConfig :=
  {| defaultLimit := Some (Num 20); maxLimit := Some (Num 100);
     minLimit := Some (Num 1); defaultPage := Some (Num 1) |}.

(** ** JavaScript operators used by the module *)

(** A field of [{ ...base, ...over }]: a field that is there in [over],
    also with the value [undefined], replaces the one of [base]. *)
Definition spread_field (base : option number) (over : PartialField)
    : option number :=
  match over with
  | Missing => base
  | Undefined => None
  | Given n => Some n
  end.

(** [{ ...base, ...over }] on configurations. *)
Definition spread_config (base : PaginationConfig)
    (over : PartialPaginationConfig) : PaginationConfig :=
  {| defaultLimit := spread_field (defaultLimit base) (defaultLimit_opt over);
     maxLimit := spread_field (maxLimit base) (maxLimit_opt over);
     minLimit := spread_field (minLimit base) (minLimit_opt over);
     defaultPage := spread_field (defaultPage base) (defaultPage_opt over) |}.

(** A configuration handed in where a partial one is expected. *)
Definition to_partial_field (x : option number) : PartialField :=
  match x with
  | Some n => Given n
  | None => Undefined
  end.

Definition to_partial (c : PaginationConfig) : PartialPaginationConfig :=
  {| defaultLimit_opt := to_partial_field (defaultLimit c);
     maxLimit_opt := to_partial_field (maxLimit c);
     minLimit_opt := to_partial_field (minLimit c);
     defaultPage_opt := to_partial_field (defaultPage c) |}.

(** [a ?? b] where both may be undefined. *)
Definition nullish_or (a b : option number) : option number :=
  match a with
  | Some n => Some n
  | None => b
  end.

(** The number an argument of [Math.max] or [Math.min] is read as:
    [undefined] is read as [NaN]. *)
Definition ToNumber (x : option number) : number := default NaN x.

(** [Math.max(a, b)]: [NaN] when an argument is [NaN]. *)
Definition Math_max (a b : number) : number :=
  match a, b with
  | Num x, Num y => Num (Z.max x y)
  | _, _ => NaN
  end.

(** [Math.min(a, b)]: [NaN] when an argument is [NaN]. *)
Definition Math_min (a b : number) : number :=
  match a, b with
  | Num x, Num y => Num (Z.min x y)
  | _, _ => NaN
  end.

(** [a - b] and [a * b] on numbers. *)
Definition number_sub (a b : number) : number :=
  match a, b with
  | Num x, Num y => Num (x - y)
  | _, _ => NaN
  end.

Definition number_mul (a b : number) : number :=
  match a, b with
  | Num x, Num y => Num (x * y)
  | _, _ => NaN
  end.

(** [o[key] = v] on an object made by the literal [{}]: the key
    ["__proto__"] names the accessor inherited from [Object.prototype],
    whose setter makes no property of the object (and changes nothing at
    all when [v] is a string); every other key becomes a property. *)
Definition assign {V : Type} (o : gmap string V) (key : string) (v : V)
    : gmap string V :=
  if String.eqb key "__proto__" then o else <[key := v]> o.

(** Truthiness of an optional string: absent and [""] are falsy. *)
Definition truthy_string (s : option string) : bool :=
  match s with
  | Some s => negb (String.eqb s "")
  | None => false
  end.

(** Truthiness of an optional sort direction: ["asc"] and ["desc"] are
    both non-empty strings. *)
Definition truthy_direction (d : option SortDirection) : bool :=
  match d with
  | Some _ => true
  | None => false
  end.

(** [Math.ceil (a / b)] on integers, for [b] other than zero. *)
Definition Math_ceil_div (a b : Z) : Z := - ((- a) / b).

(** [n || d] on numbers: zero is falsy. *)
Definition number_or (n d : Z) : Z := if n =? 0 then d else n.

(** ** index.ts *)

(** The merged configuration of [generateWhereClause]: the [config]
    parameter defaults to [DEFAULT_PAGINATION_CONFIG] and is spread over
    it. *)
Definition mergedConfig (config : option PartialPaginationConfig)
    : PaginationConfig :=
  spread_config DEFAULT_PAGINATION_CONFIG
    (default (to_partial DEFAULT_PAGINATION_CONFIG) config).

Definition generateWhereClause {T : Type} (query : PaginationQuery)
    (defaultSort : DefaultSort) (defaultWhere : T)
    (config : option PartialPaginationConfig) : WhereClauseResult T :=
  let mergedConfig := mergedConfig config in
  let page :=
    Math_max
      (ToNumber (nullish_or (q_page query) (defaultPage mergedConfig)))
      (Num 1) in
  let limit :=
    Math_min
      (Math_max
         (ToNumber (nullish_or (q_limit query) (defaultLimit mergedConfig)))
         (ToNumber (minLimit mergedConfig)))
      (ToNumber (maxLimit mergedConfig)) in
  let skip := number_mul (number_sub page (Num 1)) limit in
  let orderBy : gmap string SortDirection := ∅ in
  let orderBy :=
    if truthy_string (q_sortBy query) && truthy_direction (q_sortOrder query)
    then
      match q_sortBy query, q_sortOrder query with
      | Some sortBy, Some sortOrder => assign orderBy sortBy sortOrder
      | _, _ => orderBy
      end
    else assign orderBy (key defaultSort) (value defaultSort) in
  let where_ := defaultWhere in
  {| where_ := where_; orderBy := orderBy; page := page; skip := skip;
     limit := limit |}.

Definition generatePagination (params : GeneratePaginationParams)
    : PaginationMeta :=
  let total := p_total params in
  let page := p_page params in
  let limit := p_limit params in
  let totalPages := number_or (Math_ceil_div total limit) 1 in
  {| total := total;
     currentPage := page;
     pageSize := limit;
     totalPages := totalPages;
     hasNextPage := page <? totalPages;
     hasPreviousPage := page >? 1 |}.

(** An entry of the page-number sequence: [number | "ellipsis"]. *)
Inductive PageItem := Page (n : Z) | Ellipsis.

#[global] Instance PageItem_eq_dec : EqDecision PageItem.
Proof. solve_decision. Defined.

(** [pages.push(x)]. *)
Definition push (pages : list PageItem) (x : PageItem) : list PageItem :=
  pages ++ [x].

(** [rounds] rounds of [pages.push(i); i++]. *)
Fixpoint push_from (rounds : nat) (i : Z) (pages : list PageItem)
    : list PageItem :=
  match rounds with
  | O => pages
  | S rounds' => push_from rounds' (i + 1) (push pages (Page i))
  end.

(** [for (let i = lo; i <= hi; i++) pages.push(i)]. *)
Definition for_le (lo hi : Z) (pages : list PageItem) : list PageItem :=
  push_from (Z.to_nat (hi - lo + 1)) lo pages.

(** [for (let i = lo; i < hi; i++) pages.push(i)]. *)
Definition for_lt (lo hi : Z) (pages : list PageItem) : list PageItem :=
  push_from (Z.to_nat (hi - lo)) lo pages.

(** [Array.from({ length: n }, (_, i) => i + 1)]; a negative length
    gives the empty array. *)
Definition Array_from_length (n : Z) : list PageItem :=
  map (fun i : nat => Page (Z.of_nat i + 1)) (seq 0 (Z.to_nat n)).

Definition generatePageNumbers (currentPage totalPages : Z)
    (maxVisible : option Z) : list PageItem :=
  let maxVisible := default 5 maxVisible in
  if totalPages <=? maxVisible then Array_from_length totalPages
  else
    let pages : list PageItem := [] in
    let halfVisible := (maxVisible - 3) / 2 in
    let pages := push pages (Page 1) in
    let pages :=
      if currentPage <=? halfVisible + 2 then
        let pages := for_le 2 (maxVisible - 2) pages in
        push pages Ellipsis
      else if currentPage >=? totalPages - halfVisible - 1 then
        let pages := push pages Ellipsis in
        for_lt (totalPages - maxVisible + 3) totalPages pages
      else
        let pages := push pages Ellipsis in
        let pages :=
          for_le (currentPage - halfVisible) (currentPage + halfVisible)
                 pages in
        push pages Ellipsis in
    push pages (Page totalPages).

(** *** The page-number sequence as the documentation words it *)

(** [lo .. hi], both ends included; empty when [hi < lo]. *)
Definition page_range (lo hi : Z) : list PageItem :=
  map (fun k : nat => Page (lo + Z.of_nat k)) (seq 0 (Z.to_nat (hi - lo + 1))).

Definition pageNumbers_documented (currentPage totalPages maxVisible : Z)
    : list PageItem :=
  if totalPages <=? maxVisible then page_range 1 totalPages
  else
    let halfVisible := (maxVisible - 3) / 2 in
    if currentPage <=? halfVisible + 2 then
      [Page 1] ++ page_range 2 (maxVisible - 2)
        ++ [Ellipsis; Page totalPages]
    else if currentPage >=? totalPages - halfVisible - 1 then
      [Page 1; Ellipsis]
        ++ page_range (totalPages - maxVisible + 3) (totalPages - 1)
        ++ [Page totalPages]
    else
      [Page 1; Ellipsis]
        ++ page_range (currentPage - halfVisible) (currentPage + halfVisible)
        ++ [Ellipsis; Page totalPages].

Definition is_page (x : PageItem) : bool :=
  match x with Page _ => true | Ellipsis => false end.

Definition is_ellipsis (x : PageItem) : bool :=
  match x with Page _ => false | Ellipsis => true end.

(** How many page numbers, and how many ellipsis markers, a sequence holds. *)
Definition count_pages (l : list PageItem) : nat :=
  length (List.filter is_page l).
Definition count_ellipsis (l : list PageItem) : nat :=
  length (List.filter is_ellipsis l).

(** ** index.ts: responses, array pages and display ranges *)

Record PaginatedResponse (T : Type) := {
  data : list T;
  pagination : PaginationMeta;
}.
Arguments data {T} _.
Arguments pagination {T} _.

Definition createPaginatedResponse {T : Type} (data : list T)
    (total page limit : Z) : PaginatedResponse T :=
  {| data := data;
     pagination :=
       generatePagination
         {| p_total := total; p_page := page; p_limit := limit |} |}.

(** The index [Array.prototype.slice] makes of an argument: a negative
    one counts from the end, and both are cut to the array. *)
Definition relative_index (len k : Z) : Z :=
  if k <? 0 then Z.max (len + k) 0 else Z.min k len.

(** [items.slice(start, end)]. *)
Definition Array_slice {T : Type} (items : list T) (start end_ : Z)
    : list T :=
  let len := Z.of_nat (length items) in
  let k := relative_index len start in
  let final := relative_index len end_ in
  take (Z.to_nat (final - k)) (drop (Z.to_nat k) items).

Definition paginateArray {T : Type} (items : list T) (page limit : Z)
    : PaginatedResponse T :=
  let total := Z.of_nat (length items) in
  let skip := (page - 1) * limit in
  let data := Array_slice items skip (skip + limit) in
  createPaginatedResponse data total page limit.

Record DisplayRange := {
  from : Z;
  to : Z;
}.

Definition getDisplayRange (page limit total : Z) : DisplayRange :=
  let from := Z.min ((page - 1) * limit + 1) total in
  let to := Z.min (page * limit) total in
  {| from := from; to := to |}.

(** *** Reading a page-number sequence *)

(** The sequence continues the page number [prev] without a hole: a page
    number is the successor of the one before it, and an ellipsis marker
    is followed by a page number that is at least two higher than the one
    before the marker. *)
Fixpoint continues (prev : Z) (l : list PageItem) : Prop :=
  match l with
  | [] => True
  | Page n :: rest => n = prev + 1 /\ continues n rest
  | Ellipsis :: rest =>
      match rest with
      | Page n :: rest' => prev + 2 <= n /\ continues n rest'
      | _ => False
      end
  end.

End Pagination.

(** * JavaScript values and objects *)

Module Js.

(** A [number] held in an object: an integer or [NaN]. *)
Inductive number := NaN | Num (z : Z).

(** Objects are named by their location in the heap. *)
Abbreviation loc := positive (only parsing).

Inductive value :=
  | VUndefined
  | VNull
  | VBoolean (b : bool)
  | VNumber (n : number)
  | VBigInt (z : Z)
  | VString (s : string)
  | VSymbol (id : positive)
  | VObject (l : loc).

#[global] Instance number_eq_dec : EqDecision number.
Proof. solve_decision. Defined.

#[global] Instance value_eq_dec : EqDecision value.
Proof. solve_decision. Defined.

(** [a === b]: [NaN] equals nothing, a number and a bigint are never
    equal, objects and symbols are compared by identity. *)
Definition strict_eq (a b : value) : bool :=
  match a, b with
  | VNumber NaN, _ | _, VNumber NaN => false
  | _, _ => bool_decide (a = b)
  end.

(** [typeof v === 'number']. *)
Definition typeof_number (v : value) : bool :=
  match v with VNumber _ => true | _ => false end.

(** [Number.isNaN(v)]. *)
Definition Number_isNaN (v : value) : bool :=
  match v with VNumber NaN => true | _ => false end.

(** The heap: the own enumerable properties of every live object.  The
    prototype of an object is not recorded; it is an ordinary object, such
    as [Object.prototype], without setters or read-only properties of its
    own for the keys that are assigned. *)
Abbreviation object := (gmap string value) (only parsing).
Abbreviation heap := (gmap positive (gmap string value)) (only parsing).

(** A new object with the given properties. *)
Definition alloc (h : heap) (o : object) : heap * loc :=
  let l := fresh (dom h) in (<[l := o]> h, l).

(** The properties of the object at [l]. *)
Definition props (h : heap) (l : loc) : object := default ∅ (h !! l).

(** The keys a [for (const key in obj)] loop visits. *)
Definition for_in_keys (h : heap) (l : loc) : list string :=
  (map_to_list (props h l)).*1.

(** [Object.prototype.hasOwnProperty.call(obj, key)]. *)
Definition hasOwnProperty (h : heap) (l : loc) (key : string) : bool :=
  bool_decide (is_Some (props h l !! key)).

(** [obj[key]], for a key the object has. *)
Definition get (h : heap) (l : loc) (key : string) : value :=
  default VUndefined (props h l !! key).

(** [obj[key] = v] on an object made by the literal [{}].  The key
    ["__proto__"] names the accessor inherited from [Object.prototype]:
    its setter makes no property of the object; it changes the prototype
    when [v] is an object or null, and nothing otherwise.  Every other
    key becomes a property of the object. *)
Definition assign_property (o : object) (key : string) (v : value)
    : object :=
  if String.eqb key "__proto__" then o else <[key := v]> o.

Definition set (h : heap) (l : loc) (key : string) (v : value) : heap :=
  alter (fun o => assign_property o key v) l h.

(** [delete obj[key]]. *)
Definition delete_property (h : heap) (l : loc) (key : string) : heap :=
  alter (delete key) l h.

(** [keys.includes(key)]. *)
Definition includes (keys : list string) (key : string) : bool :=
  bool_decide (key ∈ keys).

(** [{ ...a, ...b }]: a new object, on which every copied entry is
    defined as a property of its own, also under the key ["__proto__"];
    a key of [b] wins over the same key of [a]. *)
Definition spread2 (h : heap) (a b : loc) : heap * loc :=
  alloc h (props h b ∪ props h a).

End Js.

(** * src/utils/sanitize.ts *)

Module Sanitize.
Import Js.

(** [SanitizeObjectOptions]: every option may be left out. *)
Record SanitizeObjectOptions := {
  opt_removeUndefined : option bool;
  opt_removeNull : option bool;
  opt_removeEmptyString : option bool;
  opt_removeZero : option bool;
  opt_removeNaN : option bool;
  opt_excludeKeys : option (list string);
  opt_includeKeys : option (list string);
}.

(** [{}] as an options object. *)
Definition no_options : SanitizeObjectOptions :=
  {| opt_removeUndefined := None; opt_removeNull := None;
     opt_removeEmptyString := None; opt_removeZero := None;
     opt_removeNaN := None; opt_excludeKeys := None;
     opt_includeKeys := None |}.

(** One round of the loop of [sanitizeObject], the options already
    destructured; a [continue] leaves the heap as the round found it. *)
Definition sanitize_round
    (removeUndefined removeNull removeEmptyString removeZero removeNaN : bool)
    (excludeKeys includeKeys : list string)
    (obj result : loc) (h : heap) (key : string) : heap :=
  if negb (hasOwnProperty h obj key) then h
  else if (0 <? length excludeKeys)%nat && includes excludeKeys key then
    set h result key (get h obj key)
  else if (0 <? length includeKeys)%nat && negb (includes includeKeys key) then
    set h result key (get h obj key)
  else
    let value := get h obj key in
    if removeUndefined && strict_eq value VUndefined then h
    else if removeNull && strict_eq value VNull then h
    else if removeEmptyString && strict_eq value (VString "") then h
    else if removeZero && strict_eq value (VNumber (Num 0)) then h
    else if removeNaN && typeof_number value && Number_isNaN value then h
    else set h result key value.

Definition sanitizeObject (h : heap) (obj : loc)
    (options : option SanitizeObjectOptions) : heap * loc :=
  let options := default no_options options in
  let removeUndefined := default true (opt_removeUndefined options) in
  let removeNull := default false (opt_removeNull options) in
  let removeEmptyString := default false (opt_removeEmptyString options) in
  let removeZero := default false (opt_removeZero options) in
  let removeNaN := default false (opt_removeNaN options) in
  let excludeKeys := default [] (opt_excludeKeys options) in
  let includeKeys := default [] (opt_includeKeys options) in
  let '(h, result) := alloc h ∅ in
  let h :=
    foldl
      (sanitize_round removeUndefined removeNull removeEmptyString removeZero
         removeNaN excludeKeys includeKeys obj result)
      h (for_in_keys h obj) in
  (h, result).

Definition removeUndefined (h : heap) (obj : loc) : heap * loc :=
  sanitizeObject h obj
    (Some {| opt_removeUndefined := Some true; opt_removeNull := None;
             opt_removeEmptyString := None; opt_removeZero := None;
             opt_removeNaN := None; opt_excludeKeys := None;
             opt_includeKeys := None |}).

Definition removeNullish (h : heap) (obj : loc) : heap * loc :=
  sanitizeObject h obj
    (Some {| opt_removeUndefined := Some true; opt_removeNull := Some true;
             opt_removeEmptyString := None; opt_removeZero := None;
             opt_removeNaN := None; opt_excludeKeys := None;
             opt_includeKeys := None |}).

Definition pick_round (obj result : loc) (h : heap) (key : string) : heap :=
  if hasOwnProperty h obj key then set h result key (get h obj key) else h.

Definition pick (h : heap) (obj : loc) (keys : list string) : heap * loc :=
  let '(h, result) := alloc h ∅ in
  let h := foldl (pick_round obj result) h keys in
  (h, result).

Definition omit_round (result : loc) (h : heap) (key : string) : heap :=
  delete_property h result key.

Definition omit (h : heap) (obj : loc) (keys : list string) : heap * loc :=
  let '(h, result) := alloc h (props h obj) in
  let h := foldl (omit_round result) h keys in
  (h, result).

(** *** The per-key rule of [sanitizeObject] as the documentation words it *)

Inductive Removal :=
  | ByUndefined | ByNull | ByEmptyString | ByZero | ByNaN.

(** The first active removal predicate the value matches, in the order
    undefined, null, empty string, zero, NaN. *)
Definition first_removal (options : SanitizeObjectOptions) (v : value)
    : option Removal :=
  if default true (opt_removeUndefined options) && bool_decide (v = VUndefined)
  then Some ByUndefined
  else if default false (opt_removeNull options) && bool_decide (v = VNull)
  then Some ByNull
  else if default false (opt_removeEmptyString options)
          && bool_decide (v = VString "")
  then Some ByEmptyString
  else if default false (opt_removeZero options)
          && bool_decide (v = VNumber (Num 0))
  then Some ByZero
  else if default false (opt_removeNaN options)
          && bool_decide (v = VNumber NaN)
  then Some ByNaN
  else None.

(** What becomes of the entry [key: v]: [Some v] when it is kept. *)
Definition entry_documented (options : SanitizeObjectOptions)
    (key : string) (v : value) : option value :=
  let excludeKeys := default [] (opt_excludeKeys options) in
  let includeKeys := default [] (opt_includeKeys options) in
  if bool_decide (key ∈ excludeKeys) then Some v
  else if bool_decide (includeKeys ≠ [] ∧ key ∉ includeKeys) then Some v
  else match first_removal options v with
       | Some _ => None
       | None => Some v
       end.

(** *** The loops read on the properties of the objects *)

(** Whether a round of [sanitizeObject] copies the entry [key: v]. *)
Definition sanitize_keeps
    (removeUndefined removeNull removeEmptyString removeZero removeNaN : bool)
    (excludeKeys includeKeys : list string) (key : string) (v : value)
    : bool :=
  if (0 <? length excludeKeys)%nat && includes excludeKeys key then true
  else if (0 <? length includeKeys)%nat && negb (includes includeKeys key)
  then true
  else if removeUndefined && strict_eq v VUndefined then false
  else if removeNull && strict_eq v VNull then false
  else if removeEmptyString && strict_eq v (VString "") then false
  else if removeZero && strict_eq v (VNumber (Num 0)) then false
  else if removeNaN && typeof_number v && Number_isNaN v then false
  else true.

(** A round that assigns the entry of [key] of the properties [o] to the
    properties [R] when [keeps] says so. *)
Definition copy_round (keeps : string -> value -> bool)
    (o R : gmap string value) (key : string) : gmap string value :=
  match o !! key with
  | Some v => if keeps key v then assign_property R key v else R
  | None => R
  end.

(** *** The objects of the documented calls *)

(** [{ a: 1, b: null, c: "", d: undefined, e: 0 }]. *)
Definition readme_object : gmap string value :=
  <["a" := VNumber (Num 1)]> (<["b" := VNull]> (<["c" := VString ""]>
    (<["d" := VUndefined]> (<["e" := VNumber (Num 0)]> ∅)))).

(** A heap that holds [readme_object] at location 1 and nothing else. *)
Definition readme_heap : gmap positive (gmap string value) :=
  <[1%positive := readme_object]> ∅.

(** [JSON.parse('{"__proto__": 1, "a": 2}')]: an object with a property
    of its own under the key ["__proto__"]. *)
Definition parsed_object : gmap string value :=
  <["__proto__" := VNumber (Num 1)]> (<["a" := VNumber (Num 2)]> ∅).

(** A heap that holds [parsed_object] at location 1 and nothing else. *)
Definition parsed_heap : gmap positive (gmap string value) :=
  <[1%positive := parsed_object]> ∅.

(** [{ removeNull: true, excludeKeys: ["b"] }]. *)
Definition readme_options : SanitizeObjectOptions :=
  {| opt_removeUndefined := None; opt_removeNull := Some true;
     opt_removeEmptyString := None; opt_removeZero := None;
     opt_removeNaN := None; opt_excludeKeys := Some ["b"];
     opt_includeKeys := None |}.

(** *** The other helpers of sanitize.ts *)

(** Truthiness of a value: undefined, null, [false], the number zero,
    [NaN], the bigint zero and the empty string are falsy, everything else
    is truthy. *)
Definition truthy (v : value) : bool :=
  match v with
  | VUndefined | VNull => false
  | VBoolean b => b
  | VNumber NaN => false
  | VNumber (Num z) => negb (z =? 0)
  | VBigInt z => negb (z =? 0)
  | VString s => negb (String.eqb s "")
  | VSymbol _ => true
  | VObject _ => true
  end.

(** One round of the loop of [removeFalsy]. *)
Definition removeFalsy_round (obj result : loc) (h : heap) (key : string)
    : heap :=
  if negb (hasOwnProperty h obj key) then h
  else
    let value := get h obj key in
    if truthy value then set h result key value else h.

Definition removeFalsy (h : heap) (obj : loc) : heap * loc :=
  let '(h, result) := alloc h ∅ in
  let h := foldl (removeFalsy_round obj result) h (for_in_keys h obj) in
  (h, result).

(** [Object.keys(obj)]. *)
Definition Object_keys (h : heap) (l : loc) : list string :=
  (map_to_list (props h l)).*1.

Definition isEmpty (h : heap) (obj : loc) : bool :=
  (length (Object_keys h obj) =? 0)%nat.

(** Every removal flag switched on. *)
Definition all_flags : SanitizeObjectOptions :=
  {| opt_removeUndefined := Some true; opt_removeNull := Some true;
     opt_removeEmptyString := Some true; opt_removeZero := Some true;
     opt_removeNaN := Some true; opt_excludeKeys := None;
     opt_includeKeys := None |}.

End Sanitize.

(** * src/utils: query strings and URLs *)

Module ApiUtils.

(** [string | number | boolean | undefined | null]. *)
Inductive QueryParamValue :=
  | QString (s : string)
  | QNumber (n : Z)
  | QBoolean (b : bool)
  | QUndefined
  | QNull.

(** [QueryParamValue | QueryParamValue[]]. *)
Inductive QueryParam :=
  | Single (v : QueryParamValue)
  | Many (items : list QueryParamValue).

(** A query-parameter object, as [Object.entries] lists it. *)
Abbreviation QueryParamsObject := (list (string * QueryParam)) (only parsing).

Record Error := { message : string }.

(** A call either returns or throws. *)
Inductive completion (A : Type) :=
  | Return (a : A)
  | Throw (e : Error).
Arguments Return {A} _.
Arguments Throw {A} _.

(** [process.env]: the variables the process was started with. *)
Abbreviation ProcessEnv := (gmap string string) (only parsing).

(** [v.toString()] of a value that is neither undefined nor null. *)
Definition toString (v : QueryParamValue) : string :=
  match v with
  | QString s => s
  | QNumber n => pretty n
  | QBoolean true => "true"
  | QBoolean false => "false"
  | QUndefined | QNull => ""
  end.

Definition is_nullish (v : QueryParamValue) : bool :=
  match v with QUndefined | QNull => true | _ => false end.

Section UrlSearchParams.

(** The percent-encoding [URLSearchParams.prototype.toString] applies to
    a name and to a value; it belongs to the platform. *)
Variable form_urlencode : string -> string.

(** [searchParams.toString()] of the pairs appended so far. *)
Definition searchParams_toString (pairs : list (string * string)) : string :=
  String.concat "&"
    (map (fun kv => form_urlencode kv.1 +:+ "=" +:+ form_urlencode kv.2)
         pairs).

(** One round of [Object.entries(queryParams).forEach]. *)
Definition append_entry (searchParams : list (string * string))
    (entry : string * QueryParam) : list (string * string) :=
  let '(key, value) := entry in
  match value with
  | Single v =>
      if is_nullish v then searchParams
      else searchParams ++ [(key, toString v)]
  | Many items =>
      foldl
        (fun searchParams item =>
           if is_nullish item then searchParams
           else searchParams ++ [(key, toString item)])
        searchParams items
  end.

Definition buildQueryString (queryParams : option QueryParamsObject)
    : string :=
  match queryParams with
  | None => ""
  | Some queryParams =>
      let searchParams : list (string * string) := [] in
      let searchParams := foldl append_entry searchParams queryParams in
      searchParams_toString searchParams
  end.

Definition generateUrl (path : string)
    (queryParams : option QueryParamsObject) (baseUrl : option string)
    : completion string :=
  let base := default "" baseUrl in
  if String.eqb base "" then
    Throw {| message := "Base URL is required. Provide baseUrl parameter." |}
  else
    let queryString := buildQueryString queryParams in
    let pathWithQuery :=
      if String.eqb queryString "" then path
      else path +:+ "?" +:+ queryString in
    Return (base +:+ pathWithQuery).

End UrlSearchParams.

(** What the documentation of [generateUrl] promises for the base: the
    [baseUrl] parameter, and [process.env.API_URL] when it is absent. *)
Definition base_documented (env : ProcessEnv) (baseUrl : option string)
    : option string :=
  match baseUrl with
  | Some b => Some b
  | None => env !! "API_URL"
  end.

(** ** Path parameters *)

Import Stdlib.Strings.Ascii.

(** [string | number], the value of a path parameter. *)
Inductive ParamValue :=
  | PString (s : string)
  | PNumber (n : Z).

(** [String(value)]. *)
Definition String_of (value : ParamValue) : string :=
  match value with
  | PString s => s
  | PNumber n => pretty n
  end.

(** The text a replacement string stands for when the pattern is a
    string: [$$] is a dollar sign, [$&] the matched text, [$`] the text
    before the match, [$'] the text after it; a dollar sign before
    anything else is itself, there being no capture group. *)
Fixpoint GetSubstitution (matched before after replacement : string)
    : string :=
  match replacement with
  | EmptyString => EmptyString
  | String c rest =>
      if Ascii.eqb c "$"%char then
        match rest with
        | EmptyString => String c EmptyString
        | String d rest' =>
            if Ascii.eqb d "$"%char then
              String "$"%char (GetSubstitution matched before after rest')
            else if Ascii.eqb d "&"%char then
              matched +:+ GetSubstitution matched before after rest'
            else if Ascii.eqb d "`"%char then
              before +:+ GetSubstitution matched before after rest'
            else if Ascii.eqb d "'"%char then
              after +:+ GetSubstitution matched before after rest'
            else String c (GetSubstitution matched before after rest)
        end
      else String c (GetSubstitution matched before after rest)
  end.

(** [str.replace(searchValue, replaceValue)] with a string pattern: the
    first occurrence is replaced, and a string without one is returned as
    it is. *)
Definition String_replace (str searchValue replaceValue : string) : string :=
  match String.index 0 searchValue str with
  | None => str
  | Some position =>
      let before := String.substring 0 position str in
      let tail := position + String.length searchValue in
      let after := String.substring tail (String.length str - tail) str in
      before
        +:+ GetSubstitution searchValue before after replaceValue
        +:+ after
  end%nat.

Definition buildUrl (form_urlencode : string -> string) (path : string)
    (params : list (string * ParamValue))
    (queryParams : option QueryParamsObject) (baseUrl : option string)
    : completion string :=
  let resolvedPath := path in
  let resolvedPath :=
    foldl
      (fun resolvedPath entry =>
         let '(key, value) := entry in
         String_replace resolvedPath (":" +:+ key) (String_of value))
      resolvedPath params in
  generateUrl form_urlencode resolvedPath queryParams baseUrl.

(** *** Reading a query-parameter object *)

(** The name and value pairs an entry stands for. *)
Definition entry_pairs (entry : string * QueryParam)
    : list (string * string) :=
  match entry.2 with
  | Single v => if is_nullish v then [] else [(entry.1, toString v)]
  | Many items =>
      flat_map
        (fun item => if is_nullish item then [] else [(entry.1, toString item)])
        items
  end.

(** The values an entry is read for: the value itself, or the items of
    the array in their order. *)
Definition items_of (value : QueryParam) : list QueryParamValue :=
  match value with
  | Single v => [v]
  | Many items => items
  end.

(** An entry that holds nothing but undefined and null. *)
Definition nullish_entry (entry : string * QueryParam) : bool :=
  match entry.2 with
  | Single v => is_nullish v
  | Many items => forallb is_nullish items
  end.

(** No dollar sign in the string. *)
Fixpoint no_dollar (s : string) : bool :=
  match s with
  | EmptyString => true
  | String c rest => negb (Ascii.eqb c "$"%char) && no_dollar rest
  end.

End ApiUtils.

(** * src/validation *)

Module Validation.
Import Js.

(** ** types.ts *)

Record ValidationErrorItem := {
  field : string;
  message : string;
}.

Record ValidationError := {
  name : string;
  error_message : string;
  statusCode : Z;
  code : string;
  errors : list ValidationErrorItem;
}.

(** [new ValidationError(message, errors = [], statusCode = 400)]. *)
Definition new_ValidationError (message : string)
    (errors : option (list ValidationErrorItem)) (statusCode : option Z)
    : ValidationError :=
  {| name := "ValidationError";
     error_message := message;
     statusCode := default 400 statusCode;
     code := "VALIDATION_ERROR";
     errors := default [] errors |}.

(** A segment of the path of an issue: [string | number]. *)
Inductive PathSegment :=
  | Name (s : string)
  | Index (n : Z).

Record ZodIssue := {
  path : list PathSegment;
  issue_message : string;
}.

(** The string [Array.prototype.join] makes of a segment. *)
Definition segment_toString (seg : PathSegment) : string :=
  match seg with
  | Name s => s
  | Index n => pretty n
  end.

(** [err.path.join(".")]. *)
Definition join_path (path : list PathSegment) : string :=
  String.concat "." (map segment_toString path).

Definition parseZodError (error_errors : list ZodIssue)
    : list ValidationErrorItem :=
  map (fun err => {| field := join_path (path err);
                     message := issue_message err |})
      error_errors.

(** ** middleware.ts *)

(** What [schema.parseAsync] may throw.  The [catch] block asks of the
    thrown value only whether it is an object with an [errors] member
    that is an array.  A [ZodError] is one, and the elements of its array
    are issues; another object may be one too, an [AggregateError] for
    one, and the elements of its array need not be issues: [None] stands
    for an element without a [path] array, such as an [Error].  Anything
    else has no [errors] array. *)
Inductive Exception :=
  | ZodError (errors : list ZodIssue)
  | OtherError (description : string)
  | ErrorsArray (elements : list (option ZodIssue)).

(** [parseZodError] on an [errors] array of any elements: [map] reads
    [err.path.join] of every element in turn, which throws a [TypeError]
    on the first one without a [path] array. *)
Definition parseZodError_elements (elements : list (option ZodIssue))
    : option (list ValidationErrorItem) :=
  parseZodError <$> mapM id elements.

Inductive ParseOutcome :=
  | Parsed (validated : gmap string value)
  | Rejected (error : Exception).

(** The object schema handed to the middleware: the sections it declares
    (every declared member is a schema, hence truthy) and its parser, which
    belongs to the schema library. *)
Record AnyZodObject := {
  shape : gset string;
  parseAsync : gmap string value -> ParseOutcome;
}.

(** The three fields of the request the middleware reads and writes. *)
Record Request := {
  body : value;
  query : value;
  params : value;
}.

(** The argument [next] is called with; [NextNotCalled] when the
    handler throws inside its [catch] block: the promise it returned
    rejects and it never calls [next]. *)
Inductive NextArgument :=
  | NextNothing
  | NextValidationError (e : ValidationError)
  | NextException (e : Exception)
  | NextNotCalled.

(** [shape[section]] is truthy. *)
Definition declares (schema : AnyZodObject) (section : string) : bool :=
  bool_decide (section ∈ shape schema).

(** The object the middleware hands to the parser. *)
Definition dataToValidate (schema : AnyZodObject) (req : Request)
    : gmap string value :=
  let dataToValidate : gmap string value := ∅ in
  let dataToValidate :=
    if declares schema "body" then <["body" := body req]> dataToValidate
    else dataToValidate in
  let dataToValidate :=
    if declares schema "query" then <["query" := query req]> dataToValidate
    else dataToValidate in
  let dataToValidate :=
    if declares schema "params" then <["params" := params req]> dataToValidate
    else dataToValidate in
  dataToValidate.

(** [validated[section] !== undefined], with the value when it holds. *)
Definition defined_section (validated : gmap string value) (section : string)
    : option value :=
  match validated !! section with
  | Some VUndefined | None => None
  | Some v => Some v
  end.

(** The middleware: the request as it leaves it, and the call of [next]. *)
Definition validateMiddleware (schema : AnyZodObject) (req : Request)
    : Request * NextArgument :=
  match parseAsync schema (dataToValidate schema req) with
  | Parsed validated =>
      let req :=
        match defined_section validated "body" with
        | Some v => {| body := v; query := query req; params := params req |}
        | None => req
        end in
      let req :=
        match defined_section validated "query" with
        | Some v => {| body := body req; query := v; params := params req |}
        | None => req
        end in
      let req :=
        match defined_section validated "params" with
        | Some v => {| body := body req; query := query req; params := v |}
        | None => req
        end in
      (req, NextNothing)
  | Rejected (ZodError error_errors) =>
      let errors := parseZodError error_errors in
      let message :=
        match errors with
        | e :: _ => message e
        | [] => "Validation failed"
        end in
      (req, NextValidationError (new_ValidationError message (Some errors) None))
  | Rejected (ErrorsArray elements) =>
      match parseZodError_elements elements with
      | Some errors =>
          let message :=
            match errors with
            | e :: _ => message e
            | [] => "Validation failed"
            end in
          (req,
           NextValidationError (new_ValidationError message (Some errors) None))
      | None => (req, NextNotCalled)
      end
  | Rejected error => (req, NextException error)
  end.

Definition validateRequest := validateMiddleware.

(** The value of a request field, by the name of its section. *)
Definition request_field (req : Request) (section : string) : option value :=
  if String.eqb section "body" then Some (body req)
  else if String.eqb section "query" then Some (query req)
  else if String.eqb section "params" then Some (params req)
  else None.

(** *** Schemas and a request for the examples *)

(** A schema that declares [body] and whose parser trims it to
    ["ada"]. *)
Definition trimming_schema : AnyZodObject :=
  {| shape := {["body"]};
     parseAsync := fun _ => Parsed (<["body" := VString "ada"]> ∅) |}.

(** A schema that declares [body] and whose parser accepts the input and
    turns the body into [undefined]. *)
Definition undefined_body_schema : AnyZodObject :=
  {| shape := {["body"]};
     parseAsync := fun _ => Parsed (<["body" := VUndefined]> ∅) |}.

(** A schema that declares [body] and rejects every input with two
    issues. *)
Definition rejecting_schema : AnyZodObject :=
  {| shape := {["body"]};
     parseAsync := fun _ =>
       Rejected (ZodError
         [ {| path := [Name "body"; Name "email"];
              issue_message := "Invalid email" |};
           {| path := [Name "body"; Name "tags"; Index 0];
              issue_message := "Required" |} ]) |}.

(** A schema that declares [body] and whose parser throws an
    [AggregateError] of one [Error]. *)
Definition aggregate_schema : AnyZodObject :=
  {| shape := {["body"]};
     parseAsync := fun _ => Rejected (ErrorsArray [None]) |}.

Definition example_request : Request :=
  {| body := VString " ada "; query := VNull; params := VNull |}.

(** ** validate.ts *)

(** What [schema.safeParse] returns: the parsed data, or an error with
    its [errors] array. *)
Inductive SafeParseResult (T : Type) :=
  | SafeParseSuccess (data : T)
  | SafeParseError (error_errors : list ZodIssue).
Arguments SafeParseSuccess {T} _.
Arguments SafeParseError {T} _.

(** A schema: its two parsers belong to the schema library. *)
Record ZodType (T : Type) := {
  safeParse : value -> SafeParseResult T;
  safeParseAsync : value -> SafeParseResult T;
}.
Arguments safeParse {T} _ _.
Arguments safeParseAsync {T} _ _.

(** [{ success: true; data } | { success: false; errors }]. *)
Inductive ValidationResult (T : Type) :=
  | Success (data : T)
  | Failure (errors : list ValidationErrorItem).
Arguments Success {T} _.
Arguments Failure {T} _.

Definition validate {T : Type} (schema : ZodType T) (data : value)
    : ValidationResult T :=
  match safeParse schema data with
  | SafeParseSuccess data => Success data
  | SafeParseError error_errors => Failure (parseZodError error_errors)
  end.

Definition validateAsync {T : Type} (schema : ZodType T) (data : value)
    : ValidationResult T :=
  match safeParseAsync schema data with
  | SafeParseSuccess data => Success data
  | SafeParseError error_errors => Failure (parseZodError error_errors)
  end.

(** The [Error] that [validateOrThrow] throws, with the two fields it
    adds. *)
Record ThrownError := {
  thrown_message : string;
  thrown_errors : list ValidationErrorItem;
  thrown_statusCode : Z;
}.

Inductive Outcome (T : Type) :=
  | Returns (data : T)
  | Throws (error : ThrownError).
Arguments Returns {T} _.
Arguments Throws {T} _.

Definition validateOrThrow {T : Type} (schema : ZodType T) (data : value)
    : Outcome T :=
  match safeParse schema data with
  | SafeParseSuccess data => Returns data
  | SafeParseError error_errors =>
      let errors := parseZodError error_errors in
      let message :=
        match errors with
        | e :: _ => message e
        | [] => "Validation failed"
        end in
      Throws {| thrown_message := message;
                thrown_errors := errors;
                thrown_statusCode := 400 |}
  end.

(** A schema for a name and an e-mail address that rejects an address
    without an [@], sync and async alike. *)
Definition email_schema : ZodType string :=
  let parse := fun data : value =>
    match data with
    | VString s =>
        match String.index 0 "@" s with
        | Some _ => SafeParseSuccess s
        | None =>
            SafeParseError
              [ {| path := [Name "email"]; issue_message := "Invalid email" |} ]
        end
    | _ =>
        SafeParseError
          [ {| path := []; issue_message := "Expected string" |} ]
    end in
  {| safeParse := parse; safeParseAsync := parse |}.

End Validation.

(** * Properties of the pagination functions *)

Section PaginationProperties.
Import Pagination.

(** The counting loop appends the pages [i], [i + 1], ... in order. *)
Lemma push_from_app (rounds : nat) (i : Z) (pages : list PageItem) :
  push_from rounds i pages
  = pages ++ map (fun k : nat => Page (i + Z.of_nat k)) (seq 0 rounds).
Proof.
  revert i pages.
  induction rounds as [|n IH]; intros i pages; simpl.
  - by rewrite app_nil_r.
  - rewrite IH. unfold push. rewrite <- app_assoc. simpl.
    f_equal. rewrite Z.add_0_r. f_equal.
    rewrite <- seq_shift, map_map.
    apply map_ext. intros k. f_equal. lia.
Qed.

Lemma for_le_range (lo hi : Z) (pages : list PageItem) :
  for_le lo hi pages = pages ++ page_range lo hi.
Proof. unfold for_le, page_range. apply push_from_app. Qed.

Lemma for_lt_range (lo hi : Z) (pages : list PageItem) :
  for_lt lo hi pages = pages ++ page_range lo (hi - 1).
Proof.
  unfold for_lt, page_range. rewrite push_from_app.
  do 3 f_equal. lia.
Qed.

Lemma Array_from_length_range (n : Z) :
  Array_from_length n = page_range 1 n.
Proof.
  unfold Array_from_length, page_range.
  replace (n - 1 + 1) with n by lia.
  apply map_ext. intros k. f_equal. lia.
Qed.

(** The loops of [generatePageNumbers] build the documented sequence. *)
Lemma generatePageNumbers_unfold (currentPage totalPages : Z)
    (maxVisible : option Z) :
  generatePageNumbers currentPage totalPages maxVisible
  = pageNumbers_documented currentPage totalPages (default 5 maxVisible).
Proof.
  unfold generatePageNumbers, pageNumbers_documented.
  destruct (totalPages <=? default 5 maxVisible).
  - apply Array_from_length_range.
  - destruct (currentPage <=? _).
    + rewrite for_le_range. unfold push.
      by rewrite <- !app_assoc.
    + destruct (currentPage >=? _).
      * rewrite for_lt_range. unfold push.
        by rewrite <- !app_assoc.
      * rewrite for_le_range. unfold push.
        by rewrite <- !app_assoc.
Qed.

Lemma page_range_length (lo hi : Z) :
  length (page_range lo hi) = Z.to_nat (hi - lo + 1).
Proof. unfold page_range. by rewrite length_map, length_seq. Qed.

Lemma page_range_elem (lo hi n : Z) :
  lo <= n <= hi -> Page n ∈ page_range lo hi.
Proof.
  intros Hn. unfold page_range.
  apply list_elem_of_fmap. exists (Z.to_nat (n - lo)). split.
  - f_equal. lia.
  - apply elem_of_seq. lia.
Qed.

Lemma count_pages_app (l1 l2 : list PageItem) :
  count_pages (l1 ++ l2) = (count_pages l1 + count_pages l2)%nat.
Proof. unfold count_pages. by rewrite List.filter_app, length_app. Qed.

Lemma count_ellipsis_app (l1 l2 : list PageItem) :
  count_ellipsis (l1 ++ l2) = (count_ellipsis l1 + count_ellipsis l2)%nat.
Proof. unfold count_ellipsis. by rewrite List.filter_app, length_app. Qed.

Lemma count_pages_range (lo hi : Z) :
  count_pages (page_range lo hi) = Z.to_nat (hi - lo + 1).
Proof.
  unfold count_pages. rewrite <- page_range_length. f_equal.
  unfold page_range.
  induction (seq 0 (Z.to_nat (hi - lo + 1))) as [|k l IH]; simpl; congruence.
Qed.

Lemma count_ellipsis_range (lo hi : Z) :
  count_ellipsis (page_range lo hi) = 0%nat.
Proof.
  unfold count_ellipsis, page_range.
  induction (seq 0 (Z.to_nat (hi - lo + 1))) as [|k l IH]; simpl; congruence.
Qed.

(** The arithmetic of the window: [halfVisible] leaves room for the
    first and the last page. *)
Lemma halfVisible_bounds (maxVisible : Z) :
  5 <= maxVisible ->
  1 <= (maxVisible - 3) / 2 /\
  2 * ((maxVisible - 3) / 2) + 3 <= maxVisible /\
  maxVisible <= 2 * ((maxVisible - 3) / 2) + 4.
Proof.
  intros Hmv.
  pose proof (Z.div_mod (maxVisible - 3) 2 ltac:(lia)) as Hdm.
  pose proof (Z.mod_pos_bound (maxVisible - 3) 2 ltac:(lia)) as Hm.
  lia.
Qed.

Local Ltac in_window :=
  rewrite ?elem_of_app, ?elem_of_cons; auto 8.

Local Ltac count_window :=
  rewrite ?count_pages_app, ?count_ellipsis_app, ?length_app,
    ?count_pages_range, ?count_ellipsis_range, ?page_range_length;
  unfold count_pages, count_ellipsis; simpl; lia.

(** C1, as amended.  For [1 <= currentPage <= totalPages] and
    [maxVisible >= 5] (5 when it is left out), the sequence of
    [generatePageNumbers] contains page 1 and page [totalPages], holds at
    most [maxVisible] page numbers and at most two ellipsis markers, so
    that its length is at most [maxVisible + 2]; outside the middle case
    (all pages fit, or the current page is near the start or near the end)
    its length is at most [maxVisible]. *)
Theorem generatePageNumbers_first_last_window
    (currentPage totalPages : Z) (maxVisible : option Z) :
  1 <= currentPage <= totalPages ->
  5 <= default 5 maxVisible ->
  Page 1 ∈ generatePageNumbers currentPage totalPages maxVisible /\
  Page totalPages ∈ generatePageNumbers currentPage totalPages maxVisible /\
  Z.of_nat (count_pages (generatePageNumbers currentPage totalPages maxVisible))
    <= default 5 maxVisible /\
  (count_ellipsis (generatePageNumbers currentPage totalPages maxVisible)
     <= 2)%nat /\
  Z.of_nat (length (generatePageNumbers currentPage totalPages maxVisible))
    <= default 5 maxVisible + 2 /\
  (totalPages <= default 5 maxVisible
   \/ currentPage <= (default 5 maxVisible - 3) / 2 + 2
   \/ totalPages - (default 5 maxVisible - 3) / 2 - 1 <= currentPage ->
   Z.of_nat (length (generatePageNumbers currentPage totalPages maxVisible))
     <= default 5 maxVisible).
Proof.
  intros Hcur Hmax.
  rewrite generatePageNumbers_unfold.
  generalize dependent (default 5 maxVisible). intros mv Hmax.
  destruct (halfVisible_bounds mv Hmax) as (Hh1 & Hh2 & Hh3).
  unfold pageNumbers_documented.
  destruct (Z.leb_spec totalPages mv) as [Hfit|Hbig].
  { repeat split.
    - apply page_range_elem; lia.
    - apply page_range_elem; lia.
    - count_window.
    - count_window.
    - count_window.
    - intros _. count_window. }
  destruct (Z.leb_spec currentPage ((mv - 3) / 2 + 2)) as [Hstart|Hnot].
  { repeat split.
    - in_window.
    - in_window.
    - count_window.
    - count_window.
    - count_window.
    - intros _. count_window. }
  destruct (Z.geb_spec currentPage (totalPages - (mv - 3) / 2 - 1))
    as [Hend|Hmid].
  { repeat split.
    - in_window.
    - in_window.
    - count_window.
    - count_window.
    - count_window.
    - intros _. count_window. }
  repeat split.
  - in_window.
  - in_window.
  - count_window.
  - count_window.
  - count_window.
  - intros [H|[H|H]]; lia.
Qed.

(** The amended C1 at page 5 of 10 with the default [maxVisible]. *)
Lemma generatePageNumbers_first_last_window_witness :
  Page 1 ∈ generatePageNumbers 5 10 None /\
  Page 10 ∈ generatePageNumbers 5 10 None /\
  Z.of_nat (count_pages (generatePageNumbers 5 10 None)) <= 5.
Proof.
  destruct (generatePageNumbers_first_last_window 5 10 None)
    as (H1 & H2 & H3 & _).
  - lia.
  - simpl. lia.
  - exact (conj H1 (conj H2 H3)).
Defined.

(** C1 as first stated fails in the middle case: page 5 of 10 with
    [maxVisible = 5] takes seven slots. *)
Lemma generatePageNumbers_length_counterexample :
  1 <= 5 <= 10 /\ 5 <= 5 /\
  generatePageNumbers 5 10 (Some 5)
  = [Page 1; Ellipsis; Page 4; Page 5; Page 6; Ellipsis; Page 10] /\
  ~ (Z.of_nat (length (generatePageNumbers 5 10 (Some 5))) <= 5).
Proof.
  repeat split; try lia.
  simpl. lia.
Qed.

(** C2.  [generatePageNumbers] returns the sequence of the documented
    branch formulas: all pages when they fit; otherwise the start window,
    the end window or the middle window, chosen by the documented tests on
    [halfVisible = floor((maxVisible - 3) / 2)].  Page 1 of 10 and page 10
    of 10 with [maxVisible = 5] hold page 1, page 10 and one ellipsis
    marker; 5 pages with [maxVisible = 5] give [1,2,3,4,5]. *)
Theorem generatePageNumbers_documented_sequence :
  (forall currentPage totalPages maxVisible : Z,
     generatePageNumbers currentPage totalPages (Some maxVisible)
     = pageNumbers_documented currentPage totalPages maxVisible) /\
  (forall currentPage totalPages : Z,
     generatePageNumbers currentPage totalPages None
     = pageNumbers_documented currentPage totalPages 5) /\
  generatePageNumbers 1 10 (Some 5)
    = [Page 1; Page 2; Page 3; Ellipsis; Page 10] /\
  count_ellipsis (generatePageNumbers 1 10 (Some 5)) = 1%nat /\
  generatePageNumbers 10 10 (Some 5)
    = [Page 1; Ellipsis; Page 8; Page 9; Page 10] /\
  count_ellipsis (generatePageNumbers 10 10 (Some 5)) = 1%nat /\
  generatePageNumbers 5 5 (Some 5)
    = [Page 1; Page 2; Page 3; Page 4; Page 5] /\
  count_ellipsis (generatePageNumbers 5 5 (Some 5)) = 0%nat.
Proof.
  split; [|split].
  - intros. apply generatePageNumbers_unfold.
  - intros. apply generatePageNumbers_unfold.
  - repeat split; reflexivity.
Qed.

(** Without a [config], the merged configuration is the default one. *)
Lemma mergedConfig_default : mergedConfig None = DEFAULT_PAGINATION_CONFIG.
Proof. reflexivity. Qed.

(** A limit that is [NaN] stays [NaN], and makes the skip [NaN]. *)
Lemma generateWhereClause_limit_NaN {T : Type}
    (query : PaginationQuery) (defaultSort : DefaultSort) (defaultWhere : T)
    (config : option PartialPaginationConfig) :
  q_limit query = Some NaN ->
  limit (generateWhereClause query defaultSort defaultWhere config) = NaN /\
  skip (generateWhereClause query defaultSort defaultWhere config) = NaN.
Proof.
  intros Hl. unfold generateWhereClause. cbn [limit skip]. rewrite Hl.
  cbn [nullish_or ToNumber default from_option id Math_max Math_min].
  split; [done|].
  by destruct (number_sub _ _).
Qed.

(** C4, as amended.  With a merged configuration whose four fields are
    numbers other than [NaN] and whose limits are ordered, and a query
    whose page and limit are left out or are numbers other than [NaN],
    [generateWhereClause] returns the page
    [max(query.page ?? defaultPage, 1)], the limit
    [min(max(query.limit ?? defaultLimit, minLimit), maxLimit)] and the
    skip [(page - 1) * limit]; the limit lies between [minLimit] and
    [maxLimit], and every such input gets a result. *)
Theorem generateWhereClause_page_limit_skip {T : Type}
    (query : PaginationQuery) (defaultSort : DefaultSort) (defaultWhere : T)
    (config : option PartialPaginationConfig)
    (lo d hi dp : Z) (p l : option Z) :
  minLimit (mergedConfig config) = Some (Num lo) ->
  defaultLimit (mergedConfig config) = Some (Num d) ->
  maxLimit (mergedConfig config) = Some (Num hi) ->
  defaultPage (mergedConfig config) = Some (Num dp) ->
  lo <= d -> d <= hi ->
  q_page query = Num <$> p ->
  q_limit query = Num <$> l ->
  exists r : WhereClauseResult T,
    generateWhereClause query defaultSort defaultWhere config = r /\
    page r = Num (Z.max (default dp p) 1) /\
    limit r = Num (Z.min (Z.max (default d l) lo) hi) /\
    skip r
      = Num ((Z.max (default dp p) 1 - 1) * Z.min (Z.max (default d l) lo) hi) /\
    1 <= Z.max (default dp p) 1 /\
    lo <= Z.min (Z.max (default d l) lo) hi <= hi.
Proof.
  intros Hlo Hd Hhi Hdp Hle1 Hle2 Hp Hl. eexists. split; [reflexivity|].
  unfold generateWhereClause. cbn [page limit skip].
  rewrite Hlo, Hd, Hhi, Hdp, Hp, Hl.
  destruct p as [p|], l as [l|]; cbn; repeat split; lia.
Qed.

(** The amended C4 on a request of 500 rows per page, and of none, under
    the default configuration. *)
Lemma generateWhereClause_page_limit_skip_witness :
  limit (generateWhereClause
           {| q_page := Some (Num 0); q_limit := Some (Num 500);
              q_search := None; q_sortBy := None; q_sortOrder := None |}
           {| key := "createdAt"; value := desc |} tt None) = Num 100 /\
  limit (generateWhereClause
           {| q_page := None; q_limit := Some (Num 0); q_search := None;
              q_sortBy := None; q_sortOrder := None |}
           {| key := "createdAt"; value := desc |} tt None) = Num 1.
Proof.
  split.
  - destruct (generateWhereClause_page_limit_skip
                {| q_page := Some (Num 0); q_limit := Some (Num 500);
                   q_search := None; q_sortBy := None; q_sortOrder := None |}
                {| key := "createdAt"; value := desc |} tt None
                1 20 100 1 (Some 0) (Some 500)
                eq_refl eq_refl eq_refl eq_refl ltac:(lia) ltac:(lia)
                eq_refl eq_refl)
      as (r & Hr & _ & Hlimit & _).
    rewrite Hr, Hlimit. reflexivity.
  - reflexivity.
Defined.

(** C4 as first stated fails for a limit that is [NaN]: under the
    default configuration, whose limits are ordered, the limit and the
    skip come out [NaN], and [NaN] is no number between 1 and 100. *)
Lemma generateWhereClause_limit_NaN_counterexample :
  let query :=
    {| q_page := None; q_limit := Some NaN; q_search := None;
       q_sortBy := None; q_sortOrder := None |} in
  let defaultSort := {| key := "createdAt"; value := desc |} in
  minLimit (mergedConfig None) = Some (Num 1) /\
  defaultLimit (mergedConfig None) = Some (Num 20) /\
  maxLimit (mergedConfig None) = Some (Num 100) /\
  limit (generateWhereClause query defaultSort tt None) = NaN /\
  skip (generateWhereClause query defaultSort tt None) = NaN /\
  ~ (exists n : Z,
       limit (generateWhereClause query defaultSort tt None) = Num n /\
       1 <= n <= 100).
Proof.
  repeat split. intros (n & Hn & _). discriminate Hn.
Qed.

(** [Math_ceil_div] is the ceiling of the quotient: the least [c] with
    [total <= c * limit]. *)
Lemma Math_ceil_div_spec (total limit : Z) :
  0 < limit ->
  (Math_ceil_div total limit - 1) * limit < total
  <= Math_ceil_div total limit * limit.
Proof.
  intros Hl. unfold Math_ceil_div.
  pose proof (Z.div_mod (- total) limit ltac:(lia)) as Hdm.
  pose proof (Z.mod_pos_bound (- total) limit Hl) as Hm.
  nia.
Qed.

(** C5.  For [total >= 0], [page >= 1] and [limit >= 1],
    [generatePagination] returns the total, the page as [currentPage], the
    limit as [pageSize], [totalPages = max(ceil(total / limit), 1)] (the
    ceiling being the least [c] with [total <= c * limit]),
    [hasNextPage] exactly when [page < totalPages] and [hasPreviousPage]
    exactly when [page > 1]; [totalPages >= 1], and it is 1 when
    [total = 0]. *)
Theorem generatePagination_meta (total_ page_ limit_ : Z) :
  0 <= total_ -> 1 <= page_ -> 1 <= limit_ ->
  exists c : Z,
    (c - 1) * limit_ < total_ <= c * limit_ /\
    generatePagination
      {| p_total := total_; p_page := page_; p_limit := limit_ |}
    = {| total := total_;
         currentPage := page_;
         pageSize := limit_;
         totalPages := Z.max c 1;
         hasNextPage := bool_decide (page_ < Z.max c 1);
         hasPreviousPage := bool_decide (page_ > 1) |} /\
    1 <= Z.max c 1 /\
    (total_ = 0 -> Z.max c 1 = 1).
Proof.
  intros Ht Hp Hl.
  exists (Math_ceil_div total_ limit_).
  pose proof (Math_ceil_div_spec total_ limit_ ltac:(lia)) as Hc.
  assert (0 <= Math_ceil_div total_ limit_) as Hc0 by nia.
  split; [exact Hc|]. split; [|split].
  - unfold generatePagination, number_or. simpl.
    assert ((if Math_ceil_div total_ limit_ =? 0 then 1
             else Math_ceil_div total_ limit_)
            = Z.max (Math_ceil_div total_ limit_) 1) as ->.
    { destruct (Z.eqb_spec (Math_ceil_div total_ limit_) 0); lia. }
    f_equal.
    + destruct (Z.ltb_spec page_ (Z.max (Math_ceil_div total_ limit_) 1)).
      * by rewrite bool_decide_eq_true_2.
      * rewrite bool_decide_eq_false_2; [done|lia].
    + rewrite Z.gtb_ltb. destruct (Z.ltb_spec 1 page_).
      * rewrite bool_decide_eq_true_2; [done|lia].
      * rewrite bool_decide_eq_false_2; [done|lia].
  - lia.
  - intros ->. nia.
Qed.

(** C5 on the documented example: 150 rows, page 3, 20 per page. *)
Lemma generatePagination_meta_witness :
  generatePagination {| p_total := 150; p_page := 3; p_limit := 20 |}
  = {| total := 150; currentPage := 3; pageSize := 20; totalPages := 8;
       hasNextPage := true; hasPreviousPage := true |} /\
  totalPages
    (generatePagination {| p_total := 0; p_page := 1; p_limit := 20 |}) = 1.
Proof.
  split.
  - destruct (generatePagination_meta 150 3 20) as (c & Hc & Hr & _).
    + lia.
    + lia.
    + lia.
    + rewrite Hr. assert (c = 8) as -> by lia. reflexivity.
  - reflexivity.
Defined.

(** C6, as amended.  [generateWhereClause] returns
    [orderBy = {query.sortBy: query.sortOrder}] when [sortBy] is given, is
    neither the empty string nor ["__proto__"], and [sortOrder] is given;
    when one of the two is left out or [sortBy] is the empty string, it
    returns [orderBy = {defaultSort.key: defaultSort.value}], for a
    default key other than ["__proto__"]; the two sorts are never mixed. *)
Theorem generateWhereClause_orderBy {T : Type}
    (query : PaginationQuery) (defaultSort : DefaultSort) (defaultWhere : T)
    (config : option PartialPaginationConfig) :
  (forall (sortBy : string) (sortOrder : SortDirection),
     q_sortBy query = Some sortBy -> q_sortOrder query = Some sortOrder ->
     sortBy <> "" -> sortBy <> "__proto__" ->
     orderBy (generateWhereClause query defaultSort defaultWhere config)
     = {[ sortBy := sortOrder ]}) /\
  (q_sortBy query = None \/ q_sortBy query = Some ""
   \/ q_sortOrder query = None ->
   key defaultSort <> "__proto__" ->
   orderBy (generateWhereClause query defaultSort defaultWhere config)
   = {[ key defaultSort := value defaultSort ]}).
Proof.
  unfold generateWhereClause. cbn [orderBy]. split.
  - intros sortBy sortOrder -> -> Hne Hproto. cbn [truthy_string].
    destruct (String.eqb_spec sortBy ""); [done|]. cbn [negb andb].
    cbn [truthy_direction]. unfold assign.
    destruct (String.eqb_spec sortBy "__proto__"); [done|].
    apply insert_empty.
  - intros Hcase Hproto.
    assert (truthy_string (q_sortBy query)
            && truthy_direction (q_sortOrder query) = false) as ->.
    { destruct Hcase as [-> | [-> | ->]]; [done|done|].
      apply andb_false_r. }
    unfold assign.
    destruct (String.eqb_spec (key defaultSort) "__proto__"); [done|].
    apply insert_empty.
Qed.

(** The amended C6 on the documented call, and on a query that gives
    the field and not the direction. *)
Lemma generateWhereClause_orderBy_witness :
  orderBy (generateWhereClause
             {| q_page := Some (Num 2); q_limit := Some (Num 10);
                q_search := None; q_sortBy := Some "name";
                q_sortOrder := Some asc |}
             {| key := "createdAt"; value := desc |} tt None)
    = {[ "name" := asc ]} /\
  orderBy (generateWhereClause
             {| q_page := None; q_limit := None; q_search := None;
                q_sortBy := Some "name"; q_sortOrder := None |}
             {| key := "createdAt"; value := desc |} tt None)
    = {[ "createdAt" := desc ]}.
Proof.
  split.
  - apply (generateWhereClause_orderBy
             {| q_page := Some (Num 2); q_limit := Some (Num 10);
                q_search := None; q_sortBy := Some "name";
                q_sortOrder := Some asc |}
             {| key := "createdAt"; value := desc |} tt None);
      [reflexivity|reflexivity|discriminate|discriminate].
  - apply (generateWhereClause_orderBy
             {| q_page := None; q_limit := None; q_search := None;
                q_sortBy := Some "name"; q_sortOrder := None |}
             {| key := "createdAt"; value := desc |} tt None);
      [right; right; reflexivity|discriminate].
Defined.

(** C6 as first stated fails for an empty [sortBy]: both fields are
    given, and the default sort is used. *)
Lemma generateWhereClause_orderBy_counterexample :
  let query :=
    {| q_page := None; q_limit := None; q_search := None;
       q_sortBy := Some ""; q_sortOrder := Some asc |} in
  let defaultSort := {| key := "createdAt"; value := desc |} in
  orderBy (generateWhereClause query defaultSort tt None)
    = {[ "createdAt" := desc ]} /\
  orderBy (generateWhereClause query defaultSort tt None) <> {[ "" := asc ]}.
Proof.
  split.
  - reflexivity.
  - intros H.
    apply (f_equal (fun m : gmap string SortDirection => m !! "")) in H.
    vm_compute in H. discriminate H.
Qed.

(** A [sortBy] of ["__proto__"] names no property: the result has no
    sort at all. *)
Example generateWhereClause_orderBy_proto :
  orderBy (generateWhereClause
             {| q_page := None; q_limit := None; q_search := None;
                q_sortBy := Some "__proto__"; q_sortOrder := Some asc |}
             {| key := "createdAt"; value := desc |} tt None) = ∅.
Proof. reflexivity. Qed.

(** The documented call of [generateWhereClause]. *)
Example generateWhereClause_documented_call :
  let r :=
    generateWhereClause
      {| q_page := Some (Num 2); q_limit := Some (Num 10); q_search := None;
         q_sortBy := Some "name"; q_sortOrder := Some asc |}
      {| key := "createdAt"; value := desc |} tt None in
  orderBy r = {[ "name" := asc ]} /\ skip r = Num 10 /\ limit r = Num 10
  /\ page r = Num 2.
Proof. repeat split. Qed.

End PaginationProperties.

(** * Properties of the object utilities *)

Section SanitizeProperties.
Import Js Sanitize.

Implicit Types (h : gmap positive (gmap string value)).
Implicit Types (o R : gmap string value).

(** A new object takes a location that was free, and nothing else
    changes. *)
Lemma alloc_spec h o :
  h !! (alloc h o).2 = None /\ (alloc h o).1 = <[(alloc h o).2 := o]> h.
Proof.
  unfold alloc. simpl. split; [|done].
  apply not_elem_of_dom. apply is_fresh.
Qed.

Lemma props_insert_eq h l o : props (<[l := o]> h) l = o.
Proof. unfold props. by rewrite lookup_insert_eq. Qed.

Lemma props_insert_ne h l l' o :
  l <> l' -> props (<[l := o]> h) l' = props h l'.
Proof. intros Hne. unfold props. by rewrite lookup_insert_ne. Qed.

Lemma props_lookup h l o : h !! l = Some o -> props h l = o.
Proof. intros H. unfold props. by rewrite H. Qed.

Lemma set_insert h l R key v :
  set (<[l := R]> h) l key v = <[l := assign_property R key v]> h.
Proof. unfold set. by rewrite alter_insert_eq. Qed.

Lemma delete_property_insert h l R key :
  delete_property (<[l := R]> h) l key = <[l := delete key R]> h.
Proof. unfold delete_property. by rewrite alter_insert_eq. Qed.

(** A fold of copying rounds: the entry of a visited key other than
    ["__proto__"] is the one of [o] when it is kept; every other entry is
    as it was. *)
Lemma copy_rounds_lookup (keeps : string -> value -> bool) o R
    (keys : list string) (k : string) :
  foldl (copy_round keeps o) R keys !! k
  = match o !! k with
    | Some v =>
        if decide (k ∈ keys)
        then (if keeps k v && negb (String.eqb k "__proto__")
              then Some v else R !! k)
        else R !! k
    | None => R !! k
    end.
Proof.
  revert R. induction keys as [|key keys IH]; intros R; simpl.
  - destruct (o !! k); [|done].
    destruct (decide (k ∈ [])) as [Hin|_]; [|done].
    by apply not_elem_of_nil in Hin.
  - rewrite IH. clear IH.
    assert (copy_round keeps o R key !! k
            = if decide (k = key)
              then match o !! k with
                   | Some v =>
                       if keeps k v && negb (String.eqb k "__proto__")
                       then Some v else R !! k
                   | None => R !! k
                   end
              else R !! k) as ->.
    { unfold copy_round, assign_property.
      destruct (decide (k = key)) as [->|Hne].
      - destruct (o !! key) as [v|]; [|done].
        destruct (keeps key v); [|done].
        destruct (String.eqb key "__proto__"); [done|].
        cbn [andb negb]. by rewrite lookup_insert_eq.
      - destruct (o !! key) as [v|]; [|done].
        destruct (keeps key v); [|done].
        destruct (String.eqb key "__proto__"); [done|].
        by rewrite lookup_insert_ne. }
    destruct (o !! k) as [v|]; [|by destruct (decide (k = key))].
    destruct (decide (k ∈ keys)) as [Hin|Hnin],
             (decide (k ∈ key :: keys)) as [Hin'|Hnin'],
             (decide (k = key)) as [Heq|Hne];
      try done;
      try (by destruct (keeps k v && negb (String.eqb k "__proto__"))).
    all: try (exfalso; apply Hnin'; apply elem_of_cons; by auto).
    all: apply elem_of_cons in Hin'; by destruct Hin'.
Qed.

(** A fold of deleting rounds removes the visited keys and no other. *)
Lemma delete_rounds_lookup R (keys : list string) (k : string) :
  foldl (fun R key => delete key R) R keys !! k
  = if decide (k ∈ keys) then None else R !! k.
Proof.
  revert R. induction keys as [|key keys IH]; intros R; simpl.
  - destruct (decide (k ∈ [])) as [Hin|_]; [|done].
    by apply not_elem_of_nil in Hin.
  - rewrite IH. clear IH.
    destruct (decide (k ∈ keys)) as [Hin|Hnin],
             (decide (k ∈ key :: keys)) as [Hin'|Hnin']; try done.
    all: try (exfalso; apply Hnin'; apply elem_of_cons; by auto).
    all: try (apply elem_of_cons in Hin'; destruct Hin' as [->|?]; [|done];
              by apply lookup_delete_eq).
    all: apply lookup_delete_ne; intros ->; apply Hnin'; apply elem_of_cons;
      by auto.
Qed.

(** The loop of [pick], read on the properties of the two objects. *)
Lemma pick_rounds h (obj result : positive) o R (keys : list string) :
  h !! obj = Some o -> result <> obj ->
  foldl (pick_round obj result) (<[result := R]> h) keys
  = <[result := foldl (copy_round (fun _ _ => true) o) R keys]> h.
Proof.
  intros Hobj Hne. revert R.
  induction keys as [|key keys IH]; intros R; simpl; [done|].
  rewrite <- IH. f_equal.
  unfold pick_round, copy_round, hasOwnProperty, get.
  rewrite props_insert_ne by done. rewrite (props_lookup _ _ _ Hobj).
  destruct (o !! key) as [v|].
  - rewrite bool_decide_eq_true_2 by eauto. apply set_insert.
  - rewrite bool_decide_eq_false_2; [done|]. by intros [? ?].
Qed.

(** The loop of [omit], read on the properties of the copy. *)
Lemma omit_rounds h (result : positive) R (keys : list string) :
  foldl (omit_round result) (<[result := R]> h) keys
  = <[result := foldl (fun R key => delete key R) R keys]> h.
Proof.
  revert R. induction keys as [|key keys IH]; intros R; simpl; [done|].
  rewrite <- IH. f_equal. apply delete_property_insert.
Qed.

(** The loop of [sanitizeObject], read on the properties of the two
    objects. *)
Lemma sanitize_rounds (rU rN rE rZ rNaN : bool) (excl incl : list string)
    h (obj result : positive) o R (keys : list string) :
  h !! obj = Some o -> result <> obj ->
  foldl (sanitize_round rU rN rE rZ rNaN excl incl obj result)
        (<[result := R]> h) keys
  = <[result :=
        foldl (copy_round (sanitize_keeps rU rN rE rZ rNaN excl incl) o)
              R keys]> h.
Proof.
  intros Hobj Hne. revert R.
  induction keys as [|key keys IH]; intros R; simpl; [done|].
  rewrite <- IH. f_equal.
  unfold sanitize_round, copy_round, sanitize_keeps, hasOwnProperty, get.
  rewrite props_insert_ne by done. rewrite (props_lookup _ _ _ Hobj).
  destruct (o !! key) as [v|].
  - rewrite bool_decide_eq_true_2 by eauto. cbn [negb default from_option id].
    repeat match goal with
           | |- context [if ?b then _ else _] =>
               destruct b; try apply set_insert; try reflexivity
           end.
  - rewrite bool_decide_eq_false_2; [done|]. by intros [? ?].
Qed.

(** [===] against a constant that is not [NaN] is equality. *)
Lemma strict_eq_constant (v c : value) :
  c <> VNumber NaN -> strict_eq v c = bool_decide (v = c).
Proof.
  intros Hc. unfold strict_eq.
  destruct v as [| | |[|]| | | |], c as [| | |[|]| | | |]; try done.
Qed.

Lemma isNaN_number (b : bool) (v : value) :
  b && typeof_number v && Number_isNaN v
  = b && bool_decide (v = VNumber NaN).
Proof. by destruct b, v as [| | |[|]| | | |]. Qed.

Lemma includes_nonempty (keys : list string) (key : string) :
  (0 <? length keys)%nat && includes keys key = bool_decide (key ∈ keys).
Proof.
  unfold includes. destruct keys as [|k keys]; [|reflexivity].
  symmetry. apply bool_decide_eq_false_2, not_elem_of_nil.
Qed.

Lemma excludes_nonempty (keys : list string) (key : string) :
  (0 <? length keys)%nat && negb (includes keys key)
  = bool_decide (keys <> [] /\ key ∉ keys).
Proof.
  unfold includes. destruct keys as [|k keys].
  - symmetry. apply bool_decide_eq_false_2. by intros [? _].
  - change ((0 <? length (k :: keys))%nat) with true. cbn [andb].
    destruct (decide (key ∈ k :: keys)) as [Hin|Hnin].
    + rewrite (bool_decide_eq_true_2 _ Hin).
      symmetry. apply bool_decide_eq_false_2. by intros [_ ?].
    + rewrite (bool_decide_eq_false_2 _ Hnin).
      symmetry. by apply bool_decide_eq_true_2.
Qed.

(** The tests of a round decide as the documented per-key rule does. *)
Lemma sanitize_keeps_documented (options : SanitizeObjectOptions)
    (key : string) (v : value) :
  (if sanitize_keeps
        (default true (opt_removeUndefined options))
        (default false (opt_removeNull options))
        (default false (opt_removeEmptyString options))
        (default false (opt_removeZero options))
        (default false (opt_removeNaN options))
        (default [] (opt_excludeKeys options))
        (default [] (opt_includeKeys options)) key v
   then Some v else None)
  = entry_documented options key v.
Proof.
  unfold sanitize_keeps, entry_documented, first_removal.
  rewrite includes_nonempty, excludes_nonempty, isNaN_number.
  rewrite !strict_eq_constant by done.
  repeat match goal with
         | |- context [bool_decide ?P] => destruct (bool_decide P)
         end;
  repeat match goal with
         | |- context [default ?d ?x] => destruct (default d x)
         end;
  reflexivity.
Qed.

Lemma for_in_keys_elem h (obj : positive) o (k : string) (v : value) :
  h !! obj = Some o -> o !! k = Some v -> k ∈ for_in_keys h obj.
Proof.
  intros Hobj Hk. unfold for_in_keys. rewrite (props_lookup _ _ _ Hobj).
  apply list_elem_of_fmap. exists (k, v). split; [done|].
  by apply elem_of_map_to_list.
Qed.

(** [sanitizeObject] on a live object: a new object, which holds, for
    every key other than ["__proto__"], what the documented rule leaves of
    the entry, and nothing under ["__proto__"]; the heap is otherwise as
    it was. *)
Lemma sanitizeObject_spec h (obj : positive) o
    (options : option SanitizeObjectOptions) :
  h !! obj = Some o ->
  exists R : gmap string value,
    h !! (sanitizeObject h obj options).2 = None /\
    (sanitizeObject h obj options).1
      = <[(sanitizeObject h obj options).2 := R]> h /\
    forall key : string,
      R !! key
      = if decide (key = "__proto__") then None
        else o !! key ≫= entry_documented (default no_options options) key.
Proof.
  intros Hobj. unfold sanitizeObject.
  destruct (alloc_spec h ∅) as [Hfree Hheap].
  destruct (alloc h ∅) as [h1 result]. simpl in Hfree, Hheap. subst h1.
  simpl. assert (result <> obj) as Hne by congruence.
  rewrite (sanitize_rounds _ _ _ _ _ _ _ h obj result o ∅ _ Hobj Hne).
  eexists. split; [done|]. split; [done|].
  intros key. rewrite copy_rounds_lookup.
  destruct (o !! key) as [v|] eqn:Hk; simpl.
  - rewrite decide_True.
    + rewrite <- sanitize_keeps_documented.
      destruct (String.eqb_spec key "__proto__") as [->|Hproto].
      * rewrite andb_false_r. by rewrite decide_True.
      * rewrite andb_true_r, decide_False by done.
        by destruct (sanitize_keeps _ _ _ _ _ _ _ key v).
    + eapply (for_in_keys_elem (<[result := ∅]> h)); [|done].
      by rewrite lookup_insert_ne.
  - by destruct (decide (key = "__proto__")).
Qed.

(** [pick] on a live object: a new object, which holds the entries of
    the listed keys other than ["__proto__"]; the heap is otherwise as it
    was. *)
Lemma pick_spec h (obj : positive) o (keys : list string) :
  h !! obj = Some o ->
  exists P : gmap string value,
    h !! (pick h obj keys).2 = None /\
    (pick h obj keys).1 = <[(pick h obj keys).2 := P]> h /\
    forall k : string,
      P !! k
      = if decide (k ∈ keys /\ k <> "__proto__") then o !! k else None.
Proof.
  intros Hobj. unfold pick.
  destruct (alloc_spec h ∅) as [Hfree Hheap].
  destruct (alloc h ∅) as [h1 result]. simpl in Hfree, Hheap. subst h1.
  simpl. assert (result <> obj) as Hne by congruence.
  rewrite (pick_rounds h obj result o ∅ keys Hobj Hne).
  eexists. split; [done|]. split; [done|].
  intros k. rewrite copy_rounds_lookup. cbn [andb].
  destruct (o !! k) as [v|].
  - destruct (decide (k ∈ keys)) as [Hin|Hnin],
      (String.eqb_spec k "__proto__") as [Hp|Hp],
      (decide (k ∈ keys /\ k <> "__proto__")) as [[? ?]|Hn];
      try done.
    exfalso. by apply Hn.
  - by destruct (decide (k ∈ keys)), (decide (k ∈ keys /\ k <> "__proto__")).
Qed.

(** [omit] on a live object: a new object, which holds the entries of
    the keys that are not listed; the heap is otherwise as it was. *)
Lemma omit_spec h (obj : positive) o (keys : list string) :
  h !! obj = Some o ->
  exists O : gmap string value,
    h !! (omit h obj keys).2 = None /\
    (omit h obj keys).1 = <[(omit h obj keys).2 := O]> h /\
    forall k : string, O !! k = if decide (k ∈ keys) then None else o !! k.
Proof.
  intros Hobj. unfold omit. rewrite (props_lookup _ _ _ Hobj).
  destruct (alloc_spec h o) as [Hfree Hheap].
  destruct (alloc h o) as [h1 result]. simpl in Hfree, Hheap. subst h1.
  simpl. rewrite omit_rounds.
  eexists. split; [done|]. split; [done|].
  intros k. apply delete_rounds_lookup.
Qed.

(** C7, the rule on the code.  [sanitizeObject] treats every key of a
    live object other than ["__proto__"] by the documented rule: a key of
    [excludeKeys] is kept; otherwise a key that a non-empty [includeKeys]
    does not list is kept; otherwise the entry is dropped when an active
    removal predicate matches (undefined, null, empty string, zero, NaN,
    in this order) and kept when none does; [removeUndefined] is on and
    the other flags are off unless the options say otherwise.  The
    documented object loses only its undefined entry under the defaults,
    and keeps [b: null] under [{removeNull: true, excludeKeys: ["b"]}].
    An entry of the object under the key ["__proto__"] is never in the
    result, where the rule keeps it: of the object parsed from
    [{"__proto__": 1, "a": 2}] the defaults leave [{a: 2}]. *)
Theorem sanitizeObject_per_key_rule :
  (forall h (obj : positive) o (options : option SanitizeObjectOptions),
     h !! obj = Some o ->
     exists R : gmap string value,
       (sanitizeObject h obj options).1 !! (sanitizeObject h obj options).2
         = Some R /\
       (forall key : string,
          key <> "__proto__" ->
          R !! key
          = o !! key ≫= entry_documented (default no_options options) key) /\
       (forall key : string,
          key <> "__proto__" ->
          key ∈ default [] (opt_excludeKeys (default no_options options)) ->
          R !! key = o !! key) /\
       R !! "__proto__" = None) /\
  (forall v : value,
     first_removal no_options v
     = if decide (v = VUndefined) then Some ByUndefined else None) /\
  props (sanitizeObject readme_heap 1 None).1
        (sanitizeObject readme_heap 1 None).2
    = <["a" := VNumber (Num 1)]> (<["b" := VNull]> (<["c" := VString ""]>
        (<["e" := VNumber (Num 0)]> ∅))) /\
  props (sanitizeObject readme_heap 1 (Some readme_options)).1
        (sanitizeObject readme_heap 1 (Some readme_options)).2 !! "b"
    = Some VNull /\
  entry_documented no_options "__proto__" (VNumber (Num 1))
    = Some (VNumber (Num 1)) /\
  props (sanitizeObject parsed_heap 1 None).1
        (sanitizeObject parsed_heap 1 None).2
    = <["a" := VNumber (Num 2)]> ∅.
Proof.
  split; [|split; [|split; [|split; [|split]]]].
  - intros h obj o options Hobj.
    destruct (sanitizeObject_spec h obj o options Hobj)
      as (R & Hfree & Hh & Hkeys).
    exists R. split; [rewrite Hh; apply lookup_insert_eq|].
    split; [|split].
    + intros key Hproto. by rewrite Hkeys, decide_False.
    + intros key Hproto Hin. rewrite Hkeys, decide_False by done.
      destruct (o !! key) as [v|]; [|done].
      simpl. unfold entry_documented. by rewrite bool_decide_eq_true_2.
    + by rewrite Hkeys, decide_True.
  - intros v. unfold first_removal. simpl.
    destruct (decide (v = VUndefined)) as [->|Hv]; [done|].
    by rewrite bool_decide_eq_false_2.
  - by vm_compute.
  - by vm_compute.
  - by vm_compute.
  - by vm_compute.
Qed.

(** C7 on the documented object under the default options. *)
Lemma sanitizeObject_per_key_rule_witness :
  exists R : gmap string value,
    (sanitizeObject readme_heap 1 None).1
      !! (sanitizeObject readme_heap 1 None).2 = Some R /\
    R !! "d" = None /\ R !! "b" = Some VNull.
Proof.
  destruct sanitizeObject_per_key_rule as (Hrule & _).
  destruct (Hrule readme_heap 1%positive readme_object None)
    as (R & HR & Hkeys & _).
  - reflexivity.
  - exists R. split; [exact HR|].
    split; (rewrite Hkeys; [reflexivity|discriminate]).
Defined.

(** C9, the complement on the code.  For a live object [o] and keys [K]
    among its keys, none of them ["__proto__"]: [pick] makes a new object
    with exactly the entries of [o] whose keys are in [K]; [omit] makes a
    new object with exactly the entries whose keys are not in [K]; the
    spread of the two has the entries of [o]; and [o] is the same before
    and after each call.  With the key ["__proto__"] the complement is
    lost: of the object parsed from [{"__proto__": 1, "a": 2}], [pick]
    with that key returns the empty object, and the spread of [pick] and
    [omit] is [{a: 2}]. *)
Theorem pick_omit_complement :
  (forall h (obj : positive) o (K : list string),
     h !! obj = Some o ->
     (forall k : string, k ∈ K -> is_Some (o !! k)) ->
     "__proto__" ∉ K ->
     exists (hp : gmap positive (gmap string value)) (p : positive)
            (ho : gmap positive (gmap string value)) (om : positive)
            (hm : gmap positive (gmap string value)) (m : positive),
       pick h obj K = (hp, p) /\
       omit hp obj K = (ho, om) /\
       spread2 ho p om = (hm, m) /\
       (forall k : string,
          props hp p !! k = if decide (k ∈ K) then o !! k else None) /\
       (forall k : string,
          props ho om !! k = if decide (k ∈ K) then None else o !! k) /\
       props hm m = o /\
       hp !! obj = Some o /\ ho !! obj = Some o /\ hm !! obj = Some o) /\
  (exists (hp : gmap positive (gmap string value)) (p : positive)
          (ho : gmap positive (gmap string value)) (om : positive)
          (hm : gmap positive (gmap string value)) (m : positive),
     pick parsed_heap 1 ["__proto__"] = (hp, p) /\
     omit hp 1 ["__proto__"] = (ho, om) /\
     spread2 ho p om = (hm, m) /\
     props hp p = ∅ /\
     props ho om = <["a" := VNumber (Num 2)]> ∅ /\
     props hm m = <["a" := VNumber (Num 2)]> ∅ /\
     props hm m <> parsed_object).
Proof.
  split.
  - intros h obj o K Hobj _ Hproto.
    destruct (pick_spec h obj o K Hobj) as (P & Hpfree & Hhp & HP).
    destruct (pick h obj K) as [hp p] eqn:Epick. simpl in Hpfree, Hhp.
    assert (hp !! obj = Some o) as Hobj_p.
    { subst hp. rewrite lookup_insert_ne; [done|]. congruence. }
    destruct (omit_spec hp obj o K Hobj_p) as (O & Hofree & Hho & HO).
    destruct (omit hp obj K) as [ho om] eqn:Eomit. simpl in Hofree, Hho.
    assert (ho !! obj = Some o) as Hobj_o.
    { subst ho. rewrite lookup_insert_ne; [done|]. congruence. }
    assert (props hp p = P) as Hprops_p.
    { subst hp. apply props_insert_eq. }
    assert (props ho om = O) as Hprops_o.
    { subst ho. apply props_insert_eq. }
    assert (props ho p = P) as Hprops_p'.
    { rewrite Hho, props_insert_ne; [done|].
      intros ->. rewrite Hhp, lookup_insert_eq in Hofree. discriminate. }
    assert (forall k : string,
              P !! k = if decide (k ∈ K) then o !! k else None) as HP'.
    { intros k. rewrite HP.
      destruct (decide (k ∈ K)) as [Hin|Hnin],
        (decide (k ∈ K /\ k <> "__proto__")) as [[? ?]|Hn]; try done.
      exfalso. apply Hn. split; [done|]. by intros ->. }
    destruct (alloc_spec ho (props ho om ∪ props ho p)) as [Hmfree Hhm].
    unfold spread2.
    destruct (alloc ho (props ho om ∪ props ho p)) as [hm m] eqn:Ealloc.
    simpl in Hmfree, Hhm.
    exists hp, p, ho, om, hm, m.
    repeat split; try done.
    + intros k. rewrite Hprops_p. apply HP'.
    + intros k. rewrite Hprops_o. apply HO.
    + rewrite Hhm, props_insert_eq, Hprops_o, Hprops_p'.
      apply map_eq. intros k. rewrite lookup_union, HO, HP'.
      destruct (decide (k ∈ K)), (o !! k); done.
    + rewrite Hhm, lookup_insert_ne; [done|]. congruence.
  - eexists _, _, _, _, _, _.
    split; [reflexivity|]. split; [reflexivity|]. split; [reflexivity|].
    split; [by vm_compute|]. split; [by vm_compute|]. split; [by vm_compute|].
    intros H.
    apply (f_equal (fun m : gmap string value => m !! "__proto__")) in H.
    vm_compute in H. discriminate H.
Qed.

(** C9 on the documented object and the keys [a] and [c]. *)
Lemma pick_omit_complement_witness :
  exists (hp : gmap positive (gmap string value)) (p : positive)
         (ho : gmap positive (gmap string value)) (om : positive)
         (hm : gmap positive (gmap string value)) (m : positive),
    pick readme_heap 1 ["a"; "c"] = (hp, p) /\
    omit hp 1 ["a"; "c"] = (ho, om) /\
    spread2 ho p om = (hm, m) /\
    props hm m = readme_object /\
    hm !! 1%positive = Some readme_object.
Proof.
  destruct pick_omit_complement as (Hcomplement & _).
  destruct (Hcomplement readme_heap 1%positive readme_object ["a"; "c"])
    as (hp & p & ho & om & hm & m & H1 & H2 & H3 & _ & _ & H6 & _ & _ & H9).
  - reflexivity.
  - intros k Hk. apply elem_of_cons in Hk. destruct Hk as [->|Hk].
    + eexists. reflexivity.
    + apply list_elem_of_singleton in Hk. subst k. eexists. reflexivity.
  - intros Hk. apply elem_of_cons in Hk. destruct Hk as [Hk|Hk];
      [discriminate|].
    apply list_elem_of_singleton in Hk. discriminate.
  - exists hp, p, ho, om, hm, m. auto.
Defined.

End SanitizeProperties.

(** * Properties of the URL builder *)

Section ApiUtilsProperties.
Import ApiUtils.

(** [generateUrl] throws exactly when the [baseUrl] parameter is absent
    or empty. *)
Lemma generateUrl_throws_iff (form_urlencode : string -> string)
    (path : string) (queryParams : option (list (string * QueryParam)))
    (baseUrl : option string) :
  (exists e : Error,
     generateUrl form_urlencode path queryParams baseUrl = Throw e)
  <-> baseUrl = None \/ baseUrl = Some "".
Proof.
  unfold generateUrl. split.
  - intros [e He]. destruct baseUrl as [b|]; [|by left]. right.
    simpl in He. destruct (String.eqb_spec b ""); [by subst|discriminate].
  - intros [->| ->]; simpl; eauto.
Qed.

(** C3, the call the documentation shows.  With [API_URL] set in the
    environment and no [baseUrl] parameter, the documented base is the
    value of [API_URL], and [generateUrl "/users"] throws. *)
Theorem generateUrl_without_baseUrl_throws
    (form_urlencode : string -> string) :
  base_documented {[ "API_URL" := "https://api.example.com" ]} None
    = Some "https://api.example.com" /\
  generateUrl form_urlencode "/users" None None
    = Throw {| message := "Base URL is required. Provide baseUrl parameter." |}.
Proof. split; reflexivity. Qed.

End ApiUtilsProperties.

(** * Properties of the validation middleware *)

Section ValidationProperties.
Import Js Validation.

(** The object handed to the parser has the declared sections among
    [body], [query] and [params], each with the value of the request
    field of that name, and no other key. *)
Lemma dataToValidate_lookup (schema : AnyZodObject) (req : Request)
    (section : string) :
  dataToValidate schema req !! section
  = if declares schema section then request_field req section else None.
Proof.
  unfold dataToValidate, request_field.
  destruct (String.eqb_spec section "body") as [->|Hb].
  { destruct (declares schema "body"), (declares schema "query"),
      (declares schema "params"); reflexivity. }
  destruct (String.eqb_spec section "query") as [->|Hq].
  { destruct (declares schema "body"), (declares schema "query"),
      (declares schema "params"); reflexivity. }
  destruct (String.eqb_spec section "params") as [->|Hp].
  { destruct (declares schema "body"), (declares schema "query"),
      (declares schema "params"); reflexivity. }
  assert (forall m : gmap string value,
            m !! section = None ->
            forall (b : bool) (k : string) (v : value),
              k <> section ->
              (if b then <[k := v]> m else m) !! section = None) as Hstep.
  { intros m Hm b k v Hk. destruct b; [|done]. by rewrite lookup_insert_ne. }
  rewrite Hstep; [by destruct (declares schema section)| |congruence].
  apply Hstep; [|congruence]. apply Hstep; [|congruence].
  apply lookup_empty.
Qed.

(** The items [parseZodError] returns follow the issues one by one. *)
Lemma parseZodError_lookup (issues : list ZodIssue) (i : nat) :
  parseZodError issues !! i
  = (fun issue =>
       {| field := String.concat "." (map segment_toString (path issue));
          message := issue_message issue |}) <$> issues !! i.
Proof. unfold parseZodError. apply list_lookup_fmap. Qed.

Example join_path_dotted :
  join_path [Name "body"; Name "items"; Index 0; Name "id"]
  = "body.items.0.id".
Proof. reflexivity. Qed.

(** After a successful parse, a request field holds the validated value
    of its section when that value is not [undefined], and its old value
    otherwise. *)
Lemma validateMiddleware_parsed (schema : AnyZodObject) (req : Request)
    (validated : gmap string value) :
  parseAsync schema (dataToValidate schema req) = Parsed validated ->
  (validateMiddleware schema req).2 = NextNothing /\
  body (validateMiddleware schema req).1
    = default (body req) (defined_section validated "body") /\
  query (validateMiddleware schema req).1
    = default (query req) (defined_section validated "query") /\
  params (validateMiddleware schema req).1
    = default (params req) (defined_section validated "params").
Proof.
  intros Hparse. unfold validateMiddleware. rewrite Hparse.
  destruct (defined_section validated "body"),
    (defined_section validated "query"),
    (defined_section validated "params"); by destruct req.
Qed.

Lemma defined_section_lookup (validated : gmap string value)
    (section : string) (old : value) :
  default old (defined_section validated section)
  = match validated !! section with
    | Some v => if decide (v = VUndefined) then old else v
    | None => old
    end.
Proof.
  unfold defined_section.
  destruct (validated !! section) as [[]|]; done.
Qed.

(** C8, as amended.  [validateMiddleware] hands the parser an object
    with exactly the sections among body, query and params that the schema
    declares, each read from the request field of that name.  When the
    parser accepts, every request field among body, query and params
    whose validated value is not [undefined] is overwritten with that
    value, the other fields stay as they were, and [next] is called with
    no argument.  When the parser rejects with a [ZodError], the request
    is left as it was and [next] is called with a [ValidationError] whose
    [statusCode] is 400 and whose items follow the issues one by one, the
    field of an item being the path of its issue joined by dots. *)
Theorem validateMiddleware_sections (schema : AnyZodObject) (req : Request) :
  (forall section : string,
     dataToValidate schema req !! section
     = if bool_decide (section ∈ shape schema)
       then request_field req section else None) /\
  (forall validated : gmap string value,
     parseAsync schema (dataToValidate schema req) = Parsed validated ->
     (validateMiddleware schema req).2 = NextNothing /\
     forall (section : string) (old : value),
       request_field req section = Some old ->
       request_field (validateMiddleware schema req).1 section
       = Some match validated !! section with
              | Some v => if decide (v = VUndefined) then old else v
              | None => old
              end) /\
  (forall issues : list ZodIssue,
     parseAsync schema (dataToValidate schema req) = Rejected (ZodError issues) ->
     (validateMiddleware schema req).1 = req /\
     exists e : ValidationError,
       (validateMiddleware schema req).2 = NextValidationError e /\
       statusCode e = 400 /\
       length (errors e) = length issues /\
       forall (i : nat) (issue : ZodIssue),
         issues !! i = Some issue ->
         errors e !! i
         = Some {| field :=
                     String.concat "." (map segment_toString (path issue));
                   message := issue_message issue |}).
Proof.
  split; [|split].
  - intros section. apply dataToValidate_lookup.
  - intros validated Hparse.
    destruct (validateMiddleware_parsed schema req validated Hparse)
      as (Hnext & Hbody & Hquery & Hparams).
    split; [exact Hnext|].
    intros section old. unfold request_field.
    destruct (String.eqb_spec section "body") as [->|_].
    { intros [= <-]. by rewrite Hbody, defined_section_lookup. }
    destruct (String.eqb_spec section "query") as [->|_].
    { intros [= <-]. by rewrite Hquery, defined_section_lookup. }
    destruct (String.eqb_spec section "params") as [->|_].
    { intros [= <-]. by rewrite Hparams, defined_section_lookup. }
    discriminate.
  - intros issues Hparse. unfold validateMiddleware. rewrite Hparse.
    split; [reflexivity|].
    eexists. split; [reflexivity|]. split; [reflexivity|]. split.
    + simpl. unfold parseZodError. by rewrite length_map.
    + intros i issue Hi. simpl. by rewrite parseZodError_lookup, Hi.
Qed.

(** The amended C8 on a schema that trims the body, and on one that
    rejects with two issues. *)
Lemma validateMiddleware_sections_witness :
  request_field (validateMiddleware trimming_schema example_request).1 "body"
    = Some (VString "ada") /\
  request_field (validateMiddleware trimming_schema example_request).1 "query"
    = Some VNull /\
  exists e : ValidationError,
    (validateMiddleware rejecting_schema example_request).2
      = NextValidationError e /\
    statusCode e = 400 /\
    errors e !! 1%nat
      = Some {| field := "body.tags.0"; message := "Required" |}.
Proof.
  destruct (validateMiddleware_sections trimming_schema example_request)
    as (_ & Hok & _).
  destruct (Hok (<["body" := VString "ada"]> ∅)) as (_ & Hfield);
    [reflexivity|].
  destruct (validateMiddleware_sections rejecting_schema example_request)
    as (_ & _ & Hko).
  destruct (Hko [ {| path := [Name "body"; Name "email"];
                     issue_message := "Invalid email" |};
                  {| path := [Name "body"; Name "tags"; Index 0];
                     issue_message := "Required" |} ])
    as (_ & e & Hnext & Hstatus & _ & Hitems); [reflexivity|].
  split; [|split].
  - rewrite (Hfield "body" (VString " ada ")); reflexivity.
  - rewrite (Hfield "query" VNull); reflexivity.
  - exists e. split; [exact Hnext|]. split; [exact Hstatus|].
    rewrite (Hitems 1%nat {| path := [Name "body"; Name "tags"; Index 0];
                            issue_message := "Required" |});
      reflexivity.
Defined.

(** C8 as first stated fails when the parser accepts and turns a
    declared section into [undefined]: the request field is not
    overwritten with the validated value. *)
Lemma validateMiddleware_overwrite_counterexample :
  bool_decide ("body" ∈ shape undefined_body_schema) = true /\
  parseAsync undefined_body_schema
    (dataToValidate undefined_body_schema example_request)
    = Parsed (<["body" := VUndefined]> ∅) /\
  (validateMiddleware undefined_body_schema example_request).2 = NextNothing /\
  body (validateMiddleware undefined_body_schema example_request).1
    = VString " ada " /\
  body (validateMiddleware undefined_body_schema example_request).1
    <> VUndefined.
Proof. repeat split. discriminate. Qed.

(** When the parser returns a value other than [undefined] for every
    declared section and nothing for the others, the fields that are
    overwritten are the declared ones. *)
Lemma validateMiddleware_declared_only (schema : AnyZodObject)
    (req : Request) (validated : gmap string value) :
  parseAsync schema (dataToValidate schema req) = Parsed validated ->
  (forall section : string,
     section ∈ shape schema ->
     exists v : value, validated !! section = Some v /\ v <> VUndefined) ->
  (forall section : string,
     section ∉ shape schema -> validated !! section = None) ->
  forall (section : string) (old : value),
    request_field req section = Some old ->
    request_field (validateMiddleware schema req).1 section
    = if bool_decide (section ∈ shape schema)
      then validated !! section else Some old.
Proof.
  intros Hparse Hdecl Hundecl section old Hold.
  destruct (validateMiddleware_parsed schema req validated Hparse)
    as (_ & Hbody & Hquery & Hparams).
  assert (request_field (validateMiddleware schema req).1 section
          = Some (default old (defined_section validated section))) as ->.
  { revert Hold. unfold request_field.
    destruct (String.eqb_spec section "body") as [->|_];
      [intros [= <-]; by rewrite Hbody|].
    destruct (String.eqb_spec section "query") as [->|_];
      [intros [= <-]; by rewrite Hquery|].
    destruct (String.eqb_spec section "params") as [->|_];
      [intros [= <-]; by rewrite Hparams|].
    discriminate. }
  rewrite defined_section_lookup.
  destruct (decide (section ∈ shape schema)) as [Hin|Hnin].
  - rewrite (bool_decide_eq_true_2 _ Hin).
    destruct (Hdecl section Hin) as (v & -> & Hv).
    by rewrite decide_False.
  - rewrite (bool_decide_eq_false_2 _ Hnin). by rewrite (Hundecl section Hnin).
Qed.

End ValidationProperties.

(** * Further properties of the pagination functions *)

Section PaginationPages.
Import Pagination.

(** For a start that is not negative and a length that is not negative,
    [slice] is a window of the array. *)
Lemma Array_slice_window {T : Type} (items : list T) (start count : Z) :
  0 <= start -> 0 <= count ->
  Array_slice items start (start + count)
  = take (Z.to_nat count) (drop (Z.to_nat start) items).
Proof.
  intros Hs Hc. unfold Array_slice, relative_index.
  destruct (Z.ltb_spec start 0) as [?|_]; [lia|].
  destruct (Z.ltb_spec (start + count) 0) as [?|_]; [lia|].
  destruct (Z_le_gt_dec start (Z.of_nat (length items))) as [Hin|Hout].
  - rewrite (Z.min_l start) by lia.
    destruct (Z_le_gt_dec (start + count) (Z.of_nat (length items))).
    + rewrite Z.min_l by lia. f_equal. lia.
    + rewrite Z.min_r by lia.
      rewrite !take_ge; [done| |]; rewrite length_drop; lia.
  - rewrite !Z.min_r by lia.
    rewrite !drop_ge by lia. by rewrite !take_nil.
Qed.

(** The items of a page, for a page and a limit that are positive. *)
Lemma paginateArray_data {T : Type} (items : list T) (page limit : Z) :
  1 <= page -> 1 <= limit ->
  data (paginateArray items page limit)
  = take (Z.to_nat limit) (drop (Z.to_nat ((page - 1) * limit)) items).
Proof.
  intros Hp Hl. unfold paginateArray, createPaginatedResponse. cbn [data].
  apply Array_slice_window; nia.
Qed.

(** X1.  For [page >= 1] and [limit >= 1], [paginateArray] returns the
    window of [limit] items that starts after [(page - 1) * limit] items,
    cut at the end of the array: at most [limit] items, exactly [limit]
    when the array reaches [page * limit], and none, with
    [hasNextPage = false], when the page starts at or past the end.  The
    total is the length of the array. *)
Theorem paginateArray_window {T : Type} (items : list T) (page limit : Z) :
  1 <= page -> 1 <= limit ->
  data (paginateArray items page limit)
    = take (Z.to_nat limit) (drop (Z.to_nat ((page - 1) * limit)) items) /\
  Z.of_nat (length (data (paginateArray items page limit))) <= limit /\
  total (pagination (paginateArray items page limit))
    = Z.of_nat (length items) /\
  (page * limit <= Z.of_nat (length items) ->
   Z.of_nat (length (data (paginateArray items page limit))) = limit) /\
  (Z.of_nat (length items) <= (page - 1) * limit ->
   data (paginateArray items page limit) = [] /\
   hasNextPage (pagination (paginateArray items page limit)) = false).
Proof.
  intros Hp Hl.
  rewrite (paginateArray_data items page limit Hp Hl). split; [done|]. split; [|split; [done|split]].
  - rewrite length_take. lia.
  - intros Hfull. rewrite length_take, length_drop. nia.
  - intros Hpast. split.
    + rewrite drop_ge by lia. apply take_nil.
    + unfold paginateArray, createPaginatedResponse, generatePagination.
      cbn [pagination hasNextPage p_total p_page p_limit].
      apply Z.ltb_ge. unfold number_or.
      pose proof (Math_ceil_div_spec (Z.of_nat (length items)) limit
                    ltac:(lia)) as Hc.
      destruct (Z.eqb_spec (Math_ceil_div (Z.of_nat (length items)) limit) 0);
        nia.
Qed.

Lemma paginateArray_window_witness :
  data (paginateArray [10; 20; 30; 40; 50] 2 2) = [30; 40] /\
  data (paginateArray [10; 20; 30; 40; 50] 4 2) = [].
Proof.
  destruct (paginateArray_window [10; 20; 30; 40; 50] 2 2) as (H1 & _);
    [lia|lia|].
  destruct (paginateArray_window [10; 20; 30; 40; 50] 4 2)
    as (_ & _ & _ & _ & H2); [lia|lia|].
  split.
  - rewrite H1. reflexivity.
  - apply H2. simpl. lia.
Defined.

(** Windows of the same width, taken one after the other, make up the
    front of the array. *)
Lemma windows_concat {T : Type} (items : list T) (width n : nat) :
  concat (map (fun p : nat => take width (drop (p * width) items)) (seq 0 n))
  = take (n * width) items.
Proof.
  induction n as [|n IH].
  - done.
  - rewrite seq_S, map_app, concat_app, IH. simpl.
    rewrite app_nil_r, take_take_drop. f_equal. lia.
Qed.

(** X2.  For [limit >= 1], the pages 1 to [totalPages] of
    [paginateArray], one after the other, are the array: no item is lost,
    repeated or moved. *)
Theorem paginateArray_pages_concat {T : Type} (items : list T) (limit : Z) :
  1 <= limit ->
  concat
    (map (fun p : nat => data (paginateArray items (Z.of_nat p) limit))
         (seq 1 (Z.to_nat
                   (totalPages (pagination (paginateArray items 1 limit))))))
  = items.
Proof.
  intros Hl.
  set (n := Z.to_nat (totalPages (pagination (paginateArray items 1 limit)))).
  assert (length items <= n * Z.to_nat limit)%nat as Hn.
  { subst n. unfold paginateArray, createPaginatedResponse, generatePagination.
    cbn [pagination totalPages p_total p_page p_limit]. unfold number_or.
    pose proof (Math_ceil_div_spec (Z.of_nat (length items)) limit
                  ltac:(lia)) as Hc.
    destruct (Z.eqb_spec (Math_ceil_div (Z.of_nat (length items)) limit) 0);
      nia. }
  rewrite <- seq_shift, map_map.
  rewrite (map_ext _ (fun p : nat =>
             take (Z.to_nat limit) (drop (p * Z.to_nat limit) items))).
  - rewrite windows_concat. by apply take_ge.
  - intros p.
    rewrite (paginateArray_data items (Z.of_nat (S p)) limit) by lia.
    do 2 f_equal. nia.
Qed.

Lemma paginateArray_pages_concat_witness :
  concat
    (map (fun p : nat => data (paginateArray [10; 20; 30; 40; 50]
                                             (Z.of_nat p) 2))
         (seq 1 (Z.to_nat
                   (totalPages
                      (pagination (paginateArray [10; 20; 30; 40; 50] 1 2))))))
  = [10; 20; 30; 40; 50].
Proof. apply paginateArray_pages_concat. lia. Defined.

(** X3.  [paginateArray] does not clamp the page.  For [limit >= 1],
    page 0 returns no item; a negative page whose window fits returns
    [limit] items counted from the end of the array. *)
Theorem paginateArray_page_not_positive {T : Type} (items : list T)
    (page limit : Z) :
  1 <= limit ->
  data (paginateArray items 0 limit) = [] /\
  (page < 0 -> (1 - page) * limit <= Z.of_nat (length items) ->
   data (paginateArray items page limit)
   = take (Z.to_nat limit)
       (drop (Z.to_nat (Z.of_nat (length items) + (page - 1) * limit)) items)).
Proof.
  intros Hl. split.
  - unfold paginateArray, createPaginatedResponse, Array_slice, relative_index.
    cbn [data].
    destruct (Z.ltb_spec ((0 - 1) * limit) 0) as [_|?]; [|lia].
    destruct (Z.ltb_spec ((0 - 1) * limit + limit) 0) as [?|_]; [lia|].
    replace (Z.to_nat _) with 0%nat by lia. done.
  - intros Hp Hfit.
    unfold paginateArray, createPaginatedResponse, Array_slice, relative_index.
    cbn [data].
    destruct (Z.ltb_spec ((page - 1) * limit) 0) as [_|?]; [|nia].
    destruct (Z.ltb_spec ((page - 1) * limit + limit) 0) as [_|?]; [|nia].
    f_equal; [|f_equal]; nia.
Qed.

Lemma paginateArray_page_not_positive_witness :
  data (paginateArray [10; 20; 30; 40; 50] (-1) 2) = [20; 30].
Proof.
  destruct (paginateArray_page_not_positive [10; 20; 30; 40; 50] (-1) 2)
    as (_ & H); [lia|].
  rewrite H; [reflexivity|lia|simpl; lia].
Defined.

(** X4.  For [total >= 0], [page >= 1] and [limit >= 1], [hasNextPage]
    holds exactly when rows remain after the page, that is when
    [page * limit < total]. *)
Theorem generatePagination_hasNextPage (total_ page_ limit_ : Z) :
  0 <= total_ -> 1 <= page_ -> 1 <= limit_ ->
  hasNextPage
    (generatePagination
       {| p_total := total_; p_page := page_; p_limit := limit_ |}) = true
  <-> page_ * limit_ < total_.
Proof.
  intros Ht Hp Hl. unfold generatePagination, number_or.
  cbn [hasNextPage p_total p_page p_limit].
  pose proof (Math_ceil_div_spec total_ limit_ ltac:(lia)) as Hc.
  rewrite Z.ltb_lt.
  destruct (Z.eqb_spec (Math_ceil_div total_ limit_) 0); nia.
Qed.

Lemma generatePagination_hasNextPage_witness :
  hasNextPage
    (generatePagination {| p_total := 41; p_page := 2; p_limit := 20 |}) = true.
Proof. apply generatePagination_hasNextPage; lia. Defined.

(** X5.  For [total >= 0], [page >= 1] and [limit >= 1],
    [getDisplayRange] returns [from <= to <= total].  When the page starts
    inside the data, [from] is its first row, [(page - 1) * limit + 1], and
    [to - from + 1] is the number of items [paginateArray] returns for an
    array of [total] items; when it starts past the data, also when there
    is no data, [from] and [to] are both [total]. *)
Theorem getDisplayRange_bounds (page_ limit_ total_ : Z) :
  0 <= total_ -> 1 <= page_ -> 1 <= limit_ ->
  from (getDisplayRange page_ limit_ total_)
    <= to (getDisplayRange page_ limit_ total_) <= total_ /\
  ((page_ - 1) * limit_ < total_ ->
   from (getDisplayRange page_ limit_ total_) = (page_ - 1) * limit_ + 1 /\
   forall (T : Type) (items : list T),
     Z.of_nat (length items) = total_ ->
     to (getDisplayRange page_ limit_ total_)
       - from (getDisplayRange page_ limit_ total_) + 1
     = Z.of_nat (length (data (paginateArray items page_ limit_)))) /\
  (total_ <= (page_ - 1) * limit_ ->
   from (getDisplayRange page_ limit_ total_) = total_ /\
   to (getDisplayRange page_ limit_ total_) = total_).
Proof.
  intros Ht Hp Hl. unfold getDisplayRange. cbn [from to].
  split; [nia|]. split.
  - intros Hin. split; [lia|].
    intros T items Hlen.
    rewrite (paginateArray_data items page_ limit_ Hp Hl).
    rewrite length_take, length_drop. nia.
  - intros Hout. nia.
Qed.

Lemma getDisplayRange_bounds_witness :
  from (getDisplayRange 2 20 150) = 21 /\ to (getDisplayRange 2 20 150) = 40 /\
  from (getDisplayRange 9 20 150) = 150 /\ to (getDisplayRange 9 20 150) = 150.
Proof.
  destruct (getDisplayRange_bounds 2 20 150) as (_ & H1 & _); [lia|lia|lia|].
  destruct (getDisplayRange_bounds 9 20 150) as (_ & _ & H2); [lia|lia|lia|].
  destruct (H1 ltac:(lia)) as (Hfrom & _).
  destruct (H2 ltac:(lia)) as (Hfrom' & Hto').
  repeat split; assumption.
Defined.

End PaginationPages.

Section PageNumberProperties.
Import Pagination.

(** A run of consecutive pages that follows [prev] continues it, and
    what comes after the run has to continue its last page. *)
Lemma continues_run (n : nat) (prev : Z) (rest : list PageItem) :
  continues prev
    (map (fun k : nat => Page (prev + 1 + Z.of_nat k)) (seq 0 n) ++ rest)
  <-> continues (prev + Z.of_nat n) rest.
Proof.
  revert prev. induction n as [|n IH]; intros prev.
  - simpl. by rewrite Z.add_0_r.
  - rewrite Nat2Z.inj_succ. cbn [seq map app continues].
    rewrite <- seq_shift, map_map.
    rewrite (map_ext _ (fun k : nat =>
               Page (prev + 1 + Z.of_nat 0 + 1 + Z.of_nat k))).
    + rewrite IH.
      replace (prev + 1 + Z.of_nat 0 + Z.of_nat n)
        with (prev + Z.succ (Z.of_nat n)) by lia.
      intuition lia.
    + intros k. f_equal. lia.
Qed.

Lemma continues_page_range (prev lo hi : Z) (rest : list PageItem) :
  lo = prev + 1 -> prev <= hi ->
  continues prev (page_range lo hi ++ rest) <-> continues hi rest.
Proof.
  intros -> Hhi. unfold page_range. rewrite continues_run.
  by replace (prev + Z.of_nat (Z.to_nat (hi - (prev + 1) + 1))) with hi by lia.
Qed.

Lemma page_range_empty (lo hi : Z) : hi < lo -> page_range lo hi = [].
Proof.
  intros H. unfold page_range. by replace (Z.to_nat _) with 0%nat by lia.
Qed.

Lemma page_range_cons (lo hi : Z) :
  lo <= hi -> page_range lo hi = Page lo :: page_range (lo + 1) hi.
Proof.
  intros H. unfold page_range.
  replace (Z.to_nat (hi - lo + 1)) with (S (Z.to_nat (hi - (lo + 1) + 1)))
    by lia.
  cbn [seq map]. rewrite <- seq_shift, map_map. f_equal.
  - f_equal. lia.
  - apply map_ext. intros k. f_equal. lia.
Qed.

Lemma continues_ellipsis_range (prev lo hi : Z) (rest : list PageItem) :
  lo <= hi ->
  continues prev (Ellipsis :: page_range lo hi ++ rest)
  <-> prev + 2 <= lo /\ continues hi rest.
Proof.
  intros H. rewrite page_range_cons by done.
  cbn [app continues]. by rewrite continues_page_range by lia.
Qed.

(** For [maxVisible >= 3] the sequence continues page 0. *)
Lemma pageNumbers_continue (currentPage totalPages : Z)
    (maxVisible : option Z) :
  3 <= default 5 maxVisible ->
  continues 0 (generatePageNumbers currentPage totalPages maxVisible).
Proof.
  intros Hmax. rewrite generatePageNumbers_unfold.
  generalize dependent (default 5 maxVisible). intros mv Hmax.
  pose proof (Z.div_mod (mv - 3) 2 ltac:(lia)) as Hdm.
  pose proof (Z.mod_pos_bound (mv - 3) 2 ltac:(lia)) as Hm.
  unfold pageNumbers_documented.
  destruct (Z.leb_spec totalPages mv) as [Hfit|Hbig].
  { destruct (Z_le_gt_dec 0 totalPages).
    - rewrite <- (app_nil_r (page_range 1 totalPages)).
      by apply continues_page_range.
    - unfold page_range. by replace (Z.to_nat _) with 0%nat by lia. }
  destruct (Z.leb_spec currentPage ((mv - 3) / 2 + 2)) as [Hstart|Hnot].
  { simpl. split; [done|].
    apply continues_page_range; [done|lia|]. simpl. lia. }
  destruct (Z.geb_spec currentPage (totalPages - (mv - 3) / 2 - 1))
    as [Hend|Hmid].
  { cbn [app continues]. split; [done|].
    destruct (Z_le_gt_dec (totalPages - mv + 3) (totalPages - 1)).
    - apply continues_ellipsis_range; [done|]. simpl. lia.
    - rewrite page_range_empty by lia. simpl. lia. }
  cbn [app continues]. split; [done|].
  apply continues_ellipsis_range; [lia|]. simpl. lia.
Qed.

(** For at least one page the sequence starts with page 1. *)
Lemma pageNumbers_start (currentPage totalPages : Z) (maxVisible : option Z) :
  1 <= totalPages ->
  exists rest : list PageItem,
    generatePageNumbers currentPage totalPages maxVisible = Page 1 :: rest.
Proof.
  intros Htp. rewrite generatePageNumbers_unfold.
  unfold pageNumbers_documented.
  destruct (totalPages <=? default 5 maxVisible).
  { rewrite page_range_cons by done. eauto. }
  destruct (currentPage <=? _); [cbn [app]; eauto|].
  destruct (currentPage >=? _); cbn [app]; eauto.
Qed.

(** X6.  For integers [1 <= currentPage <= totalPages] and
    [maxVisible >= 3] (5 when it is left out) the sequence of
    [generatePageNumbers] starts with page 1 and has no hole and no idle
    marker after it: a page number that comes next is the successor of
    the page number before it, and an ellipsis marker comes after a page
    number and before a page number that is at least two higher. *)
Theorem generatePageNumbers_continues (currentPage totalPages : Z)
    (maxVisible : option Z) :
  1 <= currentPage <= totalPages ->
  3 <= default 5 maxVisible ->
  exists rest : list PageItem,
    generatePageNumbers currentPage totalPages maxVisible = Page 1 :: rest /\
    continues 1 rest.
Proof.
  intros Hcur Hmax.
  destruct (pageNumbers_start currentPage totalPages maxVisible)
    as (rest & Hrest); [lia|].
  exists rest. split; [done|].
  pose proof (pageNumbers_continue currentPage totalPages maxVisible Hmax)
    as Hcont.
  rewrite Hrest in Hcont. by destruct Hcont.
Qed.

Lemma generatePageNumbers_continues_witness :
  exists rest : list PageItem,
    generatePageNumbers 7 20 (Some 7) = Page 1 :: rest /\ continues 1 rest.
Proof. apply generatePageNumbers_continues; simpl; lia. Defined.

(** A sequence that starts with a marker does not continue a page. *)
Example continues_needs_page : ~ continues 1 [Ellipsis; Ellipsis; Page 9].
Proof. simpl. tauto. Qed.

(** X7.  For [1 <= currentPage <= totalPages] and [maxVisible >= 4]
    (5 when it is left out) the sequence of [generatePageNumbers] contains
    the current page. *)
Theorem generatePageNumbers_current (currentPage totalPages : Z)
    (maxVisible : option Z) :
  1 <= currentPage <= totalPages ->
  4 <= default 5 maxVisible ->
  Page currentPage ∈ generatePageNumbers currentPage totalPages maxVisible.
Proof.
  intros Hcur Hmax. rewrite generatePageNumbers_unfold.
  generalize dependent (default 5 maxVisible). intros mv Hmax.
  pose proof (Z.div_mod (mv - 3) 2 ltac:(lia)) as Hdm.
  pose proof (Z.mod_pos_bound (mv - 3) 2 ltac:(lia)) as Hm.
  unfold pageNumbers_documented.
  destruct (Z.leb_spec totalPages mv) as [Hfit|Hbig].
  { apply page_range_elem. lia. }
  destruct (Z.leb_spec currentPage ((mv - 3) / 2 + 2)) as [Hstart|Hnot].
  { destruct (decide (currentPage = 1)) as [->|Hne].
    - apply elem_of_app. left. apply list_elem_of_singleton. done.
    - apply elem_of_app. right. apply elem_of_app. left.
      apply page_range_elem. lia. }
  destruct (Z.geb_spec currentPage (totalPages - (mv - 3) / 2 - 1))
    as [Hend|Hmid].
  { destruct (decide (currentPage = totalPages)) as [->|Hne].
    - apply elem_of_app. right. apply elem_of_app. right.
      apply list_elem_of_singleton. done.
    - apply elem_of_app. right. apply elem_of_app. left.
      apply page_range_elem. lia. }
  apply elem_of_app. right. apply elem_of_app. left.
  apply page_range_elem. lia.
Qed.

Lemma generatePageNumbers_current_witness :
  Page 2 ∈ generatePageNumbers 2 9 (Some 4).
Proof. apply generatePageNumbers_current; simpl; lia. Defined.

(** With [maxVisible = 3] the current page can be left out. *)
Example generatePageNumbers_current_needs_four :
  generatePageNumbers 2 9 (Some 3) = [Page 1; Ellipsis; Page 9].
Proof. reflexivity. Qed.

Lemma Math_max_NaN_r (a : number) : Math_max a NaN = NaN.
Proof. by destruct a. Qed.

Lemma Math_min_NaN_r (a : number) : Math_min a NaN = NaN.
Proof. by destruct a. Qed.

(** X8.  The ceiling of [generateWhereClause] is applied last.  With
    limits in the merged configuration that are numbers other than [NaN],
    ordered or not, and a [query.limit] that is left out or is a number
    other than [NaN], the limit is a number that does not exceed
    [maxLimit], and it is [maxLimit] when [maxLimit < minLimit].  A
    [query.limit] that is [NaN], or a [minLimit] or [maxLimit] that is
    undefined in the merged configuration, makes the limit [NaN]. *)
Theorem generateWhereClause_ceiling_last {T : Type}
    (query : PaginationQuery) (defaultSort : DefaultSort) (defaultWhere : T)
    (config : option PartialPaginationConfig) :
  (forall (lo d hi : Z) (l : option Z),
     minLimit (mergedConfig config) = Some (Num lo) ->
     defaultLimit (mergedConfig config) = Some (Num d) ->
     maxLimit (mergedConfig config) = Some (Num hi) ->
     q_limit query = Num <$> l ->
     exists n : Z,
       limit (generateWhereClause query defaultSort defaultWhere config)
         = Num n /\
       n <= hi /\ (hi < lo -> n = hi)) /\
  (q_limit query = Some NaN \/ minLimit (mergedConfig config) = None
   \/ maxLimit (mergedConfig config) = None ->
   limit (generateWhereClause query defaultSort defaultWhere config) = NaN).
Proof.
  unfold generateWhereClause. cbn [limit]. split.
  - intros lo d hi l -> -> -> ->.
    destruct l as [l|]; cbn; eexists; (split; [reflexivity|]); lia.
  - intros [-> | [-> | ->]]; cbn [nullish_or ToNumber default from_option id].
    + done.
    + by rewrite Math_max_NaN_r.
    + apply Math_min_NaN_r.
Qed.

Lemma generateWhereClause_ceiling_last_witness :
  limit (generateWhereClause
           {| q_page := None; q_limit := Some (Num 30); q_search := None;
              q_sortBy := None; q_sortOrder := None |}
           {| key := "createdAt"; value := desc |} tt
           (Some {| defaultLimit_opt := Missing; maxLimit_opt := Given (Num 10);
                    minLimit_opt := Given (Num 25);
                    defaultPage_opt := Missing |}))
    = Num 10 /\
  limit (generateWhereClause
           {| q_page := None; q_limit := Some (Num 30); q_search := None;
              q_sortBy := None; q_sortOrder := None |}
           {| key := "createdAt"; value := desc |} tt
           (Some {| defaultLimit_opt := Missing; maxLimit_opt := Undefined;
                    minLimit_opt := Missing; defaultPage_opt := Missing |}))
    = NaN.
Proof.
  split.
  - destruct (generateWhereClause_ceiling_last
                {| q_page := None; q_limit := Some (Num 30); q_search := None;
                   q_sortBy := None; q_sortOrder := None |}
                {| key := "createdAt"; value := desc |} tt
                (Some {| defaultLimit_opt := Missing;
                         maxLimit_opt := Given (Num 10);
                         minLimit_opt := Given (Num 25);
                         defaultPage_opt := Missing |}))
      as (H & _).
    destruct (H 25 20 10 (Some 30) eq_refl eq_refl eq_refl eq_refl)
      as (n & Hn & _ & Hmax).
    rewrite Hn, Hmax; [reflexivity|lia].
  - apply (generateWhereClause_ceiling_last
             {| q_page := None; q_limit := Some (Num 30); q_search := None;
                q_sortBy := None; q_sortOrder := None |}
             {| key := "createdAt"; value := desc |} tt
             (Some {| defaultLimit_opt := Missing; maxLimit_opt := Undefined;
                      minLimit_opt := Missing; defaultPage_opt := Missing |})).
    right. right. reflexivity.
Defined.

End PageNumberProperties.

(** * Further properties of the object utilities *)

Section ObjectUtilityProperties.
Import Js Sanitize.

Implicit Types (h : gmap positive (gmap string value)).
Implicit Types (o R : gmap string value).

(** The documented rule keeps an entry as it is or drops it. *)
Lemma entry_documented_cases (options : SanitizeObjectOptions)
    (key : string) (v : value) :
  entry_documented options key v = Some v
  \/ entry_documented options key v = None.
Proof.
  unfold entry_documented.
  destruct (bool_decide _); [by left|].
  destruct (bool_decide _); [by left|].
  destruct (first_removal options v); [by right|by left].
Qed.

(** X9.  [sanitizeObject] on a live object makes a new object and
    changes nothing else in the heap, the input included; every entry of
    the result is an entry of the input: no key is added and no value is
    changed. *)
Theorem sanitizeObject_frame h (obj : positive) o
    (options : option SanitizeObjectOptions) :
  h !! obj = Some o ->
  exists R : gmap string value,
    h !! (sanitizeObject h obj options).2 = None /\
    (sanitizeObject h obj options).1
      = <[(sanitizeObject h obj options).2 := R]> h /\
    (sanitizeObject h obj options).1 !! obj = Some o /\
    R ⊆ o.
Proof.
  intros Hobj.
  destruct (sanitizeObject_spec h obj o options Hobj) as (R & Hfree & Hh & HR).
  exists R. split; [done|]. split; [done|]. split.
  - rewrite Hh, lookup_insert_ne; [done|]. congruence.
  - apply map_subseteq_spec. intros key v. rewrite HR.
    destruct (decide (key = "__proto__")); [done|].
    destruct (o !! key) as [w|]; simpl; [|done].
    destruct (entry_documented_cases (default no_options options) key w)
      as [-> | ->]; congruence.
Qed.

Lemma sanitizeObject_frame_witness :
  (sanitizeObject readme_heap 1 (Some all_flags)).1 !! 1%positive
  = Some readme_object.
Proof.
  destruct (sanitizeObject_frame readme_heap 1%positive readme_object
              (Some all_flags)) as (R & _ & _ & H & _).
  - reflexivity.
  - exact H.
Defined.

(** X10.  Sanitizing the result again with the same options gives an
    object with the same entries. *)
Theorem sanitizeObject_idempotent h (obj : positive) o
    (options : option SanitizeObjectOptions) :
  h !! obj = Some o ->
  props (sanitizeObject (sanitizeObject h obj options).1
                        (sanitizeObject h obj options).2 options).1
        (sanitizeObject (sanitizeObject h obj options).1
                        (sanitizeObject h obj options).2 options).2
  = props (sanitizeObject h obj options).1 (sanitizeObject h obj options).2.
Proof.
  intros Hobj.
  destruct (sanitizeObject_spec h obj o options Hobj) as (R & Hfree & Hh & HR).
  destruct (sanitizeObject h obj options) as [h1 r1]. cbn [fst snd] in *.
  assert (h1 !! r1 = Some R) as Hr1 by (subst h1; apply lookup_insert_eq).
  destruct (sanitizeObject_spec h1 r1 R options Hr1)
    as (R' & Hfree' & Hh' & HR').
  destruct (sanitizeObject h1 r1 options) as [h2 r2]. cbn [fst snd] in *.
  rewrite (props_lookup h1 r1 R Hr1).
  rewrite Hh', props_insert_eq.
  apply map_eq. intros key. rewrite HR', HR.
  destruct (decide (key = "__proto__")); [done|].
  destruct (o !! key) as [v|]; simpl; [|done].
  destruct (entry_documented_cases (default no_options options) key v)
    as [E | E]; rewrite E; simpl; [exact E|done].
Qed.

Lemma sanitizeObject_idempotent_witness :
  props (sanitizeObject (sanitizeObject readme_heap 1 None).1
                        (sanitizeObject readme_heap 1 None).2 None).1
        (sanitizeObject (sanitizeObject readme_heap 1 None).1
                        (sanitizeObject readme_heap 1 None).2 None).2
  = props (sanitizeObject readme_heap 1 None).1
          (sanitizeObject readme_heap 1 None).2.
Proof.
  apply (sanitizeObject_idempotent readme_heap 1%positive readme_object).
  reflexivity.
Defined.

(** Without key lists the documented rule is the removal test alone. *)
Lemma entry_documented_no_keys (options : SanitizeObjectOptions)
    (key : string) (v : value) :
  opt_excludeKeys options = None -> opt_includeKeys options = None ->
  entry_documented options key v
  = match first_removal options v with
    | Some _ => None
    | None => Some v
    end.
Proof.
  intros He Hi. unfold entry_documented. rewrite He, Hi.
  cbn [default from_option id].
  destruct (bool_decide (key ∈ [])) eqn:E1.
  { apply bool_decide_eq_true_1 in E1. by apply not_elem_of_nil in E1. }
  destruct (bool_decide (_ /\ _)) eqn:E2; [|done].
  apply bool_decide_eq_true_1 in E2. by destruct E2.
Qed.

(** X11.  On a live object, [removeUndefined] keeps exactly the entries
    whose key is not ["__proto__"] and whose value is not undefined, and
    [removeNullish] exactly those whose key is not ["__proto__"] and whose
    value is neither undefined nor null; falsy values such as 0, the empty
    string and [false] stay. *)
Theorem removeUndefined_removeNullish_entries h (obj : positive) o :
  h !! obj = Some o ->
  (forall key : string,
     props (removeUndefined h obj).1 (removeUndefined h obj).2 !! key
     = if decide (key = "__proto__") then None
       else match o !! key with
            | Some v => if decide (v = VUndefined) then None else Some v
            | None => None
            end) /\
  (forall key : string,
     props (removeNullish h obj).1 (removeNullish h obj).2 !! key
     = if decide (key = "__proto__") then None
       else match o !! key with
            | Some v =>
                if decide (v = VUndefined \/ v = VNull) then None else Some v
            | None => None
            end).
Proof.
  intros Hobj. split; intros key.
  - unfold removeUndefined.
    match goal with
    | |- context [sanitizeObject h obj ?options] =>
        destruct (sanitizeObject_spec h obj o options Hobj)
          as (R & _ & Hh & HR)
    end.
    rewrite Hh, props_insert_eq, HR.
    destruct (decide (key = "__proto__")); [done|].
    destruct (o !! key) as [v|]; [|done].
    cbn [mbind option_bind default from_option id].
    rewrite entry_documented_no_keys by done.
    by destruct v.
  - unfold removeNullish.
    match goal with
    | |- context [sanitizeObject h obj ?options] =>
        destruct (sanitizeObject_spec h obj o options Hobj)
          as (R & _ & Hh & HR)
    end.
    rewrite Hh, props_insert_eq, HR.
    destruct (decide (key = "__proto__")); [done|].
    destruct (o !! key) as [v|]; [|done].
    cbn [mbind option_bind default from_option id].
    rewrite entry_documented_no_keys by done.
    by destruct v.
Qed.

Lemma removeUndefined_removeNullish_entries_witness :
  props (removeUndefined readme_heap 1).1 (removeUndefined readme_heap 1).2
    !! "b" = Some VNull /\
  props (removeNullish readme_heap 1).1 (removeNullish readme_heap 1).2
    !! "b" = None /\
  props (removeNullish readme_heap 1).1 (removeNullish readme_heap 1).2
    !! "e" = Some (VNumber (Num 0)) /\
  props (removeUndefined parsed_heap 1).1 (removeUndefined parsed_heap 1).2
    !! "__proto__" = None.
Proof.
  destruct (removeUndefined_removeNullish_entries readme_heap 1%positive
              readme_object) as (HU & HN); [reflexivity|].
  destruct (removeUndefined_removeNullish_entries parsed_heap 1%positive
              parsed_object) as (HU' & _); [reflexivity|].
  split; [|split; [|split]].
  - rewrite HU. reflexivity.
  - rewrite HN. reflexivity.
  - rewrite HN. reflexivity.
  - rewrite HU'. reflexivity.
Defined.

(** The loop of [removeFalsy], read on the properties of the two
    objects. *)
Lemma removeFalsy_rounds h (obj result : positive) o R (keys : list string) :
  h !! obj = Some o -> result <> obj ->
  foldl (removeFalsy_round obj result) (<[result := R]> h) keys
  = <[result := foldl (copy_round (fun _ v => truthy v) o) R keys]> h.
Proof.
  intros Hobj Hne. revert R.
  induction keys as [|key keys IH]; intros R; simpl; [done|].
  rewrite <- IH. f_equal.
  unfold removeFalsy_round, copy_round, hasOwnProperty, get.
  rewrite props_insert_ne by done. rewrite (props_lookup _ _ _ Hobj).
  destruct (o !! key) as [v|].
  - rewrite bool_decide_eq_true_2 by eauto. cbn [negb default from_option id].
    destruct (truthy v); [apply set_insert|done].
  - rewrite bool_decide_eq_false_2; [done|]. by intros [? ?].
Qed.

(** [removeFalsy] on a live object: a new object with the truthy
    entries whose key is not ["__proto__"]; the heap is otherwise as it
    was. *)
Lemma removeFalsy_spec h (obj : positive) o :
  h !! obj = Some o ->
  exists R : gmap string value,
    h !! (removeFalsy h obj).2 = None /\
    (removeFalsy h obj).1 = <[(removeFalsy h obj).2 := R]> h /\
    forall key : string,
      R !! key
      = if decide (key = "__proto__") then None
        else match o !! key with
             | Some v => if truthy v then Some v else None
             | None => None
             end.
Proof.
  intros Hobj. unfold removeFalsy.
  destruct (alloc_spec h ∅) as [Hfree Hheap].
  destruct (alloc h ∅) as [h1 result]. simpl in Hfree, Hheap. subst h1.
  simpl. assert (result <> obj) as Hne by congruence.
  rewrite (removeFalsy_rounds h obj result o ∅ _ Hobj Hne).
  eexists. split; [done|]. split; [done|].
  intros key. rewrite copy_rounds_lookup.
  destruct (o !! key) as [v|] eqn:Hk.
  - rewrite decide_True.
    + destruct (String.eqb_spec key "__proto__") as [->|Hproto].
      * rewrite andb_false_r. by rewrite decide_True.
      * rewrite andb_true_r. by rewrite decide_False.
    + eapply (for_in_keys_elem (<[result := ∅]> h)); [|done].
      by rewrite lookup_insert_ne.
  - by destruct (decide (key = "__proto__")).
Qed.

(** The values the five removal flags match are the falsy values other
    than [false] and the bigint zero. *)
Lemma first_removal_all_flags (v : value) :
  first_removal all_flags v = None
  <-> truthy v = true \/ v = VBoolean false \/ v = VBigInt 0.
Proof.
  unfold first_removal. simpl.
  destruct v as [| |[|]|[|z]|z|s|i|l]; simpl;
    try (by intuition congruence).
  - destruct (Z.eqb_spec z 0) as [->|Hz]; simpl.
    + intuition congruence.
    + rewrite bool_decide_eq_false_2 by congruence. tauto.
  - destruct (Z.eqb_spec z 0) as [->|Hz]; simpl; [tauto|tauto].
  - destruct (String.eqb_spec s "") as [->|Hs]; simpl.
    + intuition congruence.
    + rewrite bool_decide_eq_false_2 by congruence. tauto.
Qed.

(** X12.  On a live object, [removeFalsy] keeps exactly the entries
    whose key is not ["__proto__"] and whose value is truthy.  It is
    [sanitizeObject] with the five removal flags on, less the entries whose
    value is [false] or the bigint zero: the flags remove neither. *)
Theorem removeFalsy_entries h (obj : positive) o :
  h !! obj = Some o ->
  forall key : string,
    props (removeFalsy h obj).1 (removeFalsy h obj).2 !! key
    = (if decide (key = "__proto__") then None
       else match o !! key with
            | Some v => if truthy v then Some v else None
            | None => None
            end) /\
    props (removeFalsy h obj).1 (removeFalsy h obj).2 !! key
    = match props (sanitizeObject h obj (Some all_flags)).1
                  (sanitizeObject h obj (Some all_flags)).2 !! key with
      | Some (VBoolean false) => None
      | Some (VBigInt Z0) => None
      | kept => kept
      end.
Proof.
  intros Hobj key.
  destruct (removeFalsy_spec h obj o Hobj) as (R & _ & HhR & HR).
  destruct (sanitizeObject_spec h obj o (Some all_flags) Hobj)
    as (S & _ & HhS & HS).
  rewrite HhR, HhS, !props_insert_eq, HR, HS. split; [done|].
  destruct (decide (key = "__proto__")); [done|].
  destruct (o !! key) as [v|]; [|done].
  cbn [mbind option_bind default from_option id].
  rewrite entry_documented_no_keys by done.
  pose proof (first_removal_all_flags v) as Hall.
  destruct (first_removal all_flags v) as [r|].
  - destruct (truthy v); [|done].
    destruct Hall as [_ Hall]. discriminate Hall. by left.
  - destruct Hall as [Hall _].
    destruct (Hall eq_refl) as [Ht| [-> | ->]]; [|done|done].
    rewrite Ht. destruct v as [| |[|]| |[| |]| | |]; done.
Qed.

Lemma removeFalsy_entries_witness :
  props (removeFalsy readme_heap 1).1 (removeFalsy readme_heap 1).2 !! "a"
    = Some (VNumber (Num 1)) /\
  props (removeFalsy readme_heap 1).1 (removeFalsy readme_heap 1).2 !! "e"
    = None /\
  props (removeFalsy parsed_heap 1).1 (removeFalsy parsed_heap 1).2
    !! "__proto__" = None.
Proof.
  destruct (removeFalsy_entries readme_heap 1%positive readme_object
              ltac:(reflexivity) "a") as (Ha & _).
  destruct (removeFalsy_entries readme_heap 1%positive readme_object
              ltac:(reflexivity) "e") as (He & _).
  destruct (removeFalsy_entries parsed_heap 1%positive parsed_object
              ltac:(reflexivity) "__proto__") as (Hp & _).
  split; [rewrite Ha|split; [rewrite He|rewrite Hp]]; reflexivity.
Defined.

(** X13.  Keys the object does not have.  When no listed key is a key
    of the live object, [pick] returns an empty object (no entry with an
    undefined value is made) and [omit] returns an object with the entries
    of the input; this object is a new one, not the input itself. *)
Theorem pick_omit_missing_keys h (obj : positive) o (keys : list string) :
  h !! obj = Some o ->
  (forall k : string, k ∈ keys -> o !! k = None) ->
  props (pick h obj keys).1 (pick h obj keys).2 = ∅ /\
  props (omit h obj keys).1 (omit h obj keys).2 = o /\
  (omit h obj keys).2 <> obj.
Proof.
  intros Hobj Hmiss.
  destruct (pick_spec h obj o keys Hobj) as (P & _ & HhP & HP).
  destruct (omit_spec h obj o keys Hobj) as (O & HfreeO & HhO & HO).
  rewrite HhP, HhO, !props_insert_eq. split; [|split].
  - apply map_empty. intros k. rewrite HP.
    destruct (decide (k ∈ keys /\ k <> "__proto__")) as [[Hin _]|];
      [by apply Hmiss|done].
  - apply map_eq. intros k. rewrite HO.
    destruct (decide (k ∈ keys)) as [Hin|]; [|done].
    by rewrite (Hmiss k Hin).
  - congruence.
Qed.

Lemma pick_omit_missing_keys_witness :
  props (pick readme_heap 1 ["x"]).1 (pick readme_heap 1 ["x"]).2 = ∅ /\
  props (omit readme_heap 1 ["x"]).1 (omit readme_heap 1 ["x"]).2
    = readme_object.
Proof.
  destruct (pick_omit_missing_keys readme_heap 1%positive readme_object ["x"])
    as (H1 & H2 & _).
  - reflexivity.
  - intros k Hk. apply list_elem_of_singleton in Hk. subst k. reflexivity.
  - exact (conj H1 H2).
Defined.



Lemma isEmpty_props h (l : positive) :
  isEmpty h l = true <-> props h l = ∅.
Proof.
  unfold isEmpty, Object_keys. rewrite Nat.eqb_eq, length_fmap.
  rewrite <- map_to_list_empty_iff. apply length_zero_iff_nil.
Qed.

(** X15.  [isEmpty] holds exactly of an object without entries.  On a
    live object, omitting every key of [Object.keys] gives an empty object,
    and so does picking a list of keys from the result of omitting that
    list. *)
Theorem isEmpty_omit_all h (obj : positive) o (keys : list string) :
  h !! obj = Some o ->
  (isEmpty h obj = true <-> o = ∅) /\
  isEmpty (omit h obj (Object_keys h obj)).1
          (omit h obj (Object_keys h obj)).2 = true /\
  isEmpty (pick (omit h obj keys).1 (omit h obj keys).2 keys).1
          (pick (omit h obj keys).1 (omit h obj keys).2 keys).2 = true.
Proof.
  intros Hobj. split; [|split].
  - rewrite isEmpty_props. by rewrite (props_lookup h obj o Hobj).
  - apply isEmpty_props.
    destruct (omit_spec h obj o (Object_keys h obj) Hobj)
      as (O & _ & HhO & HO).
    rewrite HhO, props_insert_eq.
    apply map_empty. intros k. rewrite HO.
    destruct (decide (k ∈ Object_keys h obj)) as [|Hnin]; [done|].
    destruct (o !! k) as [v|] eqn:Hk; [|done].
    exfalso. apply Hnin. by eapply for_in_keys_elem.
  - apply isEmpty_props.
    destruct (omit_spec h obj o keys Hobj) as (O & _ & HhO & HO).
    destruct (omit h obj keys) as [h1 r1]. cbn [fst snd] in *.
    assert (h1 !! r1 = Some O) as Hr1 by (subst h1; apply lookup_insert_eq).
    destruct (pick_spec h1 r1 O keys Hr1) as (P & _ & HhP & HP).
    rewrite HhP, props_insert_eq.
    apply map_empty. intros k. rewrite HP, HO.
    destruct (decide (k ∈ keys /\ k <> "__proto__")) as [[Hin _]|]; [|done].
    by rewrite decide_True.
Qed.

Lemma isEmpty_omit_all_witness :
  isEmpty readme_heap 1 = false /\
  isEmpty (omit readme_heap 1 (Object_keys readme_heap 1)).1
          (omit readme_heap 1 (Object_keys readme_heap 1)).2 = true.
Proof.
  destruct (isEmpty_omit_all readme_heap 1%positive readme_object [])
    as (_ & H & _).
  - reflexivity.
  - split; [reflexivity|exact H].
Defined.

End ObjectUtilityProperties.

(** * Further properties of the URL builder *)

Section QueryStringProperties.
Import ApiUtils.

Variable form_urlencode : string -> string.

Lemma append_items (key : string) (items : list QueryParamValue)
    (searchParams : list (string * string)) :
  foldl
    (fun searchParams item =>
       if is_nullish item then searchParams
       else searchParams ++ [(key, toString item)])
    searchParams items
  = searchParams
    ++ flat_map
         (fun item => if is_nullish item then [] else [(key, toString item)])
         items.
Proof.
  revert searchParams. induction items as [|item items IH];
    intros searchParams; simpl.
  - by rewrite app_nil_r.
  - rewrite IH. destruct (is_nullish item); simpl; [done|].
    by rewrite <- app_assoc.
Qed.

(** The loop over the entries appends the pairs of every entry, in the
    order of the entries. *)
Lemma append_entries (queryParams : list (string * QueryParam))
    (searchParams : list (string * string)) :
  foldl append_entry searchParams queryParams
  = searchParams ++ flat_map entry_pairs queryParams.
Proof.
  revert searchParams.
  induction queryParams as [|[key value] queryParams IH];
    intros searchParams; simpl.
  - by rewrite app_nil_r.
  - rewrite IH, app_assoc. f_equal. unfold entry_pairs. simpl.
    destruct value as [v|items].
    + by destruct (is_nullish v); rewrite ?app_nil_r.
    + apply append_items.
Qed.

Lemma buildQueryString_pairs (queryParams : list (string * QueryParam)) :
  buildQueryString form_urlencode (Some queryParams)
  = searchParams_toString form_urlencode (flat_map entry_pairs queryParams).
Proof. unfold buildQueryString. by rewrite append_entries. Qed.

Lemma nullish_entry_pairs (entry : string * QueryParam) :
  nullish_entry entry = true -> entry_pairs entry = [].
Proof.
  unfold nullish_entry, entry_pairs. destruct entry as [key [v|items]]; simpl.
  - by intros ->.
  - induction items as [|item items IH]; simpl; [done|].
    intros [Hitem Hitems]%andb_prop. rewrite Hitem. simpl. by apply IH.
Qed.

Lemma buildQueryString_all_nullish
    (queryParams : list (string * QueryParam)) :
  forallb nullish_entry queryParams = true ->
  buildQueryString form_urlencode (Some queryParams) = "".
Proof.
  intros Hall. rewrite buildQueryString_pairs.
  assert (flat_map entry_pairs queryParams = []) as ->; [|done].
  induction queryParams as [|entry queryParams IH]; simpl; [done|].
  simpl in Hall. apply andb_prop in Hall as [Hentry Hrest].
  by rewrite (nullish_entry_pairs entry Hentry), IH.
Qed.

(** X16.  Undefined and null never reach the query string: the entries
    that hold nothing else can be left out without changing the result,
    and when every entry is such, as when there is no entry or no object
    at all, the result is the empty string. *)
Theorem buildQueryString_nullish_skipped
    (queryParams : list (string * QueryParam)) :
  buildQueryString form_urlencode (Some queryParams)
    = buildQueryString form_urlencode
        (Some (List.filter (fun entry => negb (nullish_entry entry))
                           queryParams)) /\
  (forallb nullish_entry queryParams = true ->
   buildQueryString form_urlencode (Some queryParams) = "") /\
  buildQueryString form_urlencode None = "".
Proof.
  split; [|split; [|done]].
  - rewrite !buildQueryString_pairs. f_equal.
    induction queryParams as [|entry queryParams IH]; simpl; [done|].
    destruct (nullish_entry entry) eqn:E; simpl.
    + by rewrite (nullish_entry_pairs entry E).
    + by rewrite IH.
  - apply buildQueryString_all_nullish.
Qed.

Lemma entry_pairs_items (entry : string * QueryParam) :
  map (fun kv => form_urlencode kv.1 +:+ "=" +:+ form_urlencode kv.2)
      (entry_pairs entry)
  = map (fun item =>
           form_urlencode entry.1 +:+ "=" +:+ form_urlencode (toString item))
        (List.filter (fun item => negb (is_nullish item)) (items_of entry.2)).
Proof.
  destruct entry as [key [v|items]]; unfold entry_pairs; simpl.
  - by destruct (is_nullish v).
  - induction items as [|item items IH]; simpl; [done|].
    destruct (is_nullish item); simpl; [done|]. by rewrite IH.
Qed.

(** X17.  The query string joins with an ampersand one [name=value] pair
    for every value that is neither undefined nor null, in the order of
    the entries and, inside an array, in the order of its items; every
    item of an array takes the key of its entry.  An array of one item
    gives what the item alone gives. *)
Theorem buildQueryString_array_spread
    (queryParams : list (string * QueryParam)) :
  buildQueryString form_urlencode (Some queryParams)
    = String.concat "&"
        (flat_map
           (fun entry =>
              map (fun item =>
                     form_urlencode entry.1 +:+ "="
                       +:+ form_urlencode (toString item))
                  (List.filter (fun item => negb (is_nullish item))
                               (items_of entry.2)))
           queryParams) /\
  (forall (before after : list (string * QueryParam)) (key : string)
          (v : QueryParamValue),
     queryParams = before ++ (key, Many [v]) :: after ->
     buildQueryString form_urlencode (Some queryParams)
     = buildQueryString form_urlencode
         (Some (before ++ (key, Single v) :: after))).
Proof.
  split.
  - rewrite buildQueryString_pairs. unfold searchParams_toString. f_equal.
    induction queryParams as [|entry queryParams IH]; [done|].
    cbn [flat_map]. by rewrite map_app, IH, entry_pairs_items.
  - intros before after key v ->. rewrite !buildQueryString_pairs. f_equal.
    rewrite !flat_map_app. f_equal. cbn [flat_map]. f_equal.
    unfold entry_pairs. simpl. by rewrite app_nil_r.
Qed.

(** X18.  [generateUrl] throws exactly when the [baseUrl] parameter is
    absent or empty, whatever the path and the query parameters.  With a
    base and no query parameter other than undefined and null, it returns
    the base followed by the path, without a question mark. *)
Theorem generateUrl_result (path : string)
    (queryParams : option (list (string * QueryParam)))
    (baseUrl : option string) :
  ((exists e : Error,
      generateUrl form_urlencode path queryParams baseUrl = Throw e)
   <-> baseUrl = None \/ baseUrl = Some "") /\
  (forall base : string,
     baseUrl = Some base -> base <> "" ->
     forallb nullish_entry (default [] queryParams) = true ->
     generateUrl form_urlencode path queryParams baseUrl
     = Return (base +:+ path)).
Proof.
  split; [apply generateUrl_throws_iff|].
  intros base -> Hbase Hnull. unfold generateUrl. simpl.
  destruct (String.eqb_spec base ""); [done|].
  assert (buildQueryString form_urlencode queryParams = "") as ->; [|done].
  destruct queryParams as [q|]; [|done].
  by apply buildQueryString_all_nullish.
Qed.

End QueryStringProperties.

Lemma generateUrl_result_witness :
  ApiUtils.generateUrl id "/users"
    (Some [("search", ApiUtils.Single ApiUtils.QUndefined)])
    (Some "https://api.example.com")
  = ApiUtils.Return "https://api.example.com/users".
Proof.
  destruct (generateUrl_result id "/users"
              (Some [("search", ApiUtils.Single ApiUtils.QUndefined)])
              (Some "https://api.example.com")) as (_ & H).
  apply (H "https://api.example.com"); [reflexivity|discriminate|reflexivity].
Defined.

Lemma buildQueryString_array_spread_witness :
  ApiUtils.buildQueryString id
    (Some [("q", ApiUtils.Single (ApiUtils.QString "a"));
           ("tags", ApiUtils.Many [ApiUtils.QString "x"])])
  = ApiUtils.buildQueryString id
      (Some [("q", ApiUtils.Single (ApiUtils.QString "a"));
             ("tags", ApiUtils.Single (ApiUtils.QString "x"))]).
Proof.
  destruct (buildQueryString_array_spread id
              [("q", ApiUtils.Single (ApiUtils.QString "a"));
               ("tags", ApiUtils.Many [ApiUtils.QString "x"])]) as (_ & H).
  apply (H [("q", ApiUtils.Single (ApiUtils.QString "a"))] []
           "tags" (ApiUtils.QString "x")).
  reflexivity.
Defined.

Lemma buildQueryString_nullish_skipped_witness :
  ApiUtils.buildQueryString id
    (Some [("tags", ApiUtils.Many [ApiUtils.QNull; ApiUtils.QUndefined]);
           ("q", ApiUtils.Single ApiUtils.QNull)])
  = "".
Proof.
  destruct (buildQueryString_nullish_skipped id
              [("tags", ApiUtils.Many [ApiUtils.QNull; ApiUtils.QUndefined]);
               ("q", ApiUtils.Single ApiUtils.QNull)]) as (_ & H & _).
  apply H. reflexivity.
Defined.

Section BuildUrlProperties.
Import ApiUtils.
Import Stdlib.Strings.Ascii.

Variable form_urlencode : string -> string.

Lemma string_app_nil_r (s : string) : s +:+ "" = s.
Proof.
  induction s as [|c s IH]; [done|].
  change (String c (s +:+ "") = String c s). by rewrite IH.
Qed.

Lemma string_app_length (a b : string) :
  String.length (a +:+ b) = (String.length a + String.length b)%nat.
Proof.
  induction a as [|c a IH]; [done|].
  change (S (String.length (a +:+ b))
          = S (String.length a + String.length b)).
  by rewrite IH.
Qed.

Lemma substring_prefix (pre s : string) :
  String.substring 0 (String.length pre) (pre +:+ s) = pre.
Proof.
  induction pre as [|c pre IH].
  - by destruct s.
  - change (String c (String.substring 0 (String.length pre) (pre +:+ s))
            = String c pre).
    by rewrite IH.
Qed.

Lemma substring_skip (pre s : string) (n m : nat) :
  String.substring (String.length pre + n) m (pre +:+ s)
  = String.substring n m s.
Proof. induction pre as [|c pre IH]; [done|]. exact IH. Qed.

Lemma substring_whole (s : string) :
  String.substring 0 (String.length s) s = s.
Proof.
  induction s as [|c s IH]; [done|].
  change (String c (String.substring 0 (String.length s) s) = String c s).
  by rewrite IH.
Qed.

(** The pattern is found where it first stands. *)
Lemma index_first_occurrence (pre pat post : string) :
  pat <> "" ->
  (forall p : nat,
     (p < String.length pre)%nat ->
     String.substring p (String.length pat) (pre +:+ pat +:+ post) <> pat) ->
  String.index 0 pat (pre +:+ pat +:+ post) = Some (String.length pre).
Proof.
  intros Hpat Hfirst.
  assert (String.substring (String.length pre) (String.length pat)
            (pre +:+ pat +:+ post) = pat) as Hhere.
  { rewrite <- (Nat.add_0_r (String.length pre)), substring_skip.
    apply substring_prefix. }
  destruct (String.index 0 pat (pre +:+ pat +:+ post)) as [m|] eqn:E.
  - f_equal.
    pose proof (String.index_correct1 _ _ _ _ E) as Hm.
    pose proof (String.index_correct2 _ _ _ _ E) as Hbefore.
    destruct (Nat.lt_trichotomy m (String.length pre)) as [Hlt|[Heq|Hgt]].
    + by destruct (Hfirst m Hlt).
    + done.
    + destruct (Hbefore (String.length pre)); [lia|done|done].
  - by destruct (String.index_correct3 0 (String.length pre) _ _ E Hpat
                   ltac:(lia)).
Qed.

(** [replace] on a string whose first occurrence of the pattern stands
    after [pre]. *)
Lemma String_replace_first (pre pat post replaceValue : string) :
  pat <> "" ->
  (forall p : nat,
     (p < String.length pre)%nat ->
     String.substring p (String.length pat) (pre +:+ pat +:+ post) <> pat) ->
  String_replace (pre +:+ pat +:+ post) pat replaceValue
  = pre +:+ GetSubstitution pat pre post replaceValue +:+ post.
Proof.
  intros Hpat Hfirst. unfold String_replace.
  rewrite (index_first_occurrence pre pat post Hpat Hfirst).
  rewrite substring_prefix.
  assert (String.substring (String.length pre + String.length pat)
            (String.length (pre +:+ pat +:+ post)
             - (String.length pre + String.length pat))
            (pre +:+ pat +:+ post) = post) as ->; [|done].
  rewrite !string_app_length.
  replace (String.length pre + (String.length pat + String.length post)
           - (String.length pre + String.length pat))%nat
    with (String.length post) by lia.
  rewrite substring_skip.
  rewrite <- (Nat.add_0_r (String.length pat)), substring_skip.
  apply substring_whole.
Qed.

(** [replace] on a string without the pattern. *)
Lemma String_replace_absent (str pat replaceValue : string) :
  (forall p : nat, String.substring p (String.length pat) str <> pat) ->
  String_replace str pat replaceValue = str.
Proof.
  intros Habsent. unfold String_replace.
  destruct (String.index 0 pat str) as [m|] eqn:E; [|done].
  by destruct (Habsent m (String.index_correct1 _ _ _ _ E)).
Qed.

Lemma GetSubstitution_no_dollar (matched before after replacement : string) :
  no_dollar replacement = true ->
  GetSubstitution matched before after replacement = replacement.
Proof.
  induction replacement as [|c rest IH]; simpl; [done|].
  intros [Hc Hrest]%andb_prop.
  destruct (Ascii.eqb c "$"%char); [done|]. by rewrite IH.
Qed.

(** X19.  [buildUrl] with one parameter whose placeholder first stands
    after [pre], and whose value has no dollar sign: the placeholder is
    replaced by the value there, and what follows it, a second
    placeholder of the same name included, is left as it is. *)
Theorem buildUrl_first_occurrence (pre post key : string)
    (value : ParamValue) (queryParams : option (list (string * QueryParam)))
    (baseUrl : option string) :
  (forall p : nat,
     (p < String.length pre)%nat ->
     String.substring p (String.length (":" +:+ key))
       (pre +:+ (":" +:+ key) +:+ post) <> ":" +:+ key) ->
  no_dollar (String_of value) = true ->
  buildUrl form_urlencode (pre +:+ (":" +:+ key) +:+ post) [(key, value)]
    queryParams baseUrl
  = generateUrl form_urlencode (pre +:+ String_of value +:+ post)
      queryParams baseUrl.
Proof.
  intros Hfirst Hvalue. unfold buildUrl. cbn [foldl].
  rewrite String_replace_first by done.
  by rewrite GetSubstitution_no_dollar.
Qed.

(** X20.  The value of a parameter is read as a replacement pattern:
    under the hypothesis of X19 on the placeholder, the value [$$] puts
    one dollar sign in the path, the value [$&] leaves the placeholder, the
    value [$`] puts what stands before the placeholder, and the value [$']
    what stands after it. *)
Theorem buildUrl_dollar_patterns (pre post key : string)
    (queryParams : option (list (string * QueryParam)))
    (baseUrl : option string) :
  (forall p : nat,
     (p < String.length pre)%nat ->
     String.substring p (String.length (":" +:+ key))
       (pre +:+ (":" +:+ key) +:+ post) <> ":" +:+ key) ->
  buildUrl form_urlencode (pre +:+ (":" +:+ key) +:+ post)
    [(key, PString "$$")] queryParams baseUrl
  = generateUrl form_urlencode (pre +:+ "$" +:+ post) queryParams baseUrl /\
  buildUrl form_urlencode (pre +:+ (":" +:+ key) +:+ post)
    [(key, PString "$&")] queryParams baseUrl
  = generateUrl form_urlencode (pre +:+ (":" +:+ key) +:+ post)
      queryParams baseUrl /\
  buildUrl form_urlencode (pre +:+ (":" +:+ key) +:+ post)
    [(key, PString "$`")] queryParams baseUrl
  = generateUrl form_urlencode (pre +:+ pre +:+ post) queryParams baseUrl /\
  buildUrl form_urlencode (pre +:+ (":" +:+ key) +:+ post)
    [(key, PString "$'")] queryParams baseUrl
  = generateUrl form_urlencode (pre +:+ post +:+ post) queryParams baseUrl.
Proof.
  intros Hfirst. unfold buildUrl. cbn [foldl String_of].
  rewrite !String_replace_first by done.
  cbn [GetSubstitution Ascii.eqb Bool.eqb].
  by rewrite !string_app_nil_r.
Qed.

(** X21.  [buildUrl] throws exactly when [generateUrl] does, that is
    when the [baseUrl] parameter is absent or empty; and when no
    placeholder of a parameter stands in the path, the parameters are
    ignored and the path is used as it is. *)
Theorem buildUrl_unmatched (path : string)
    (params : list (string * ParamValue))
    (queryParams : option (list (string * QueryParam)))
    (baseUrl : option string) :
  ((exists e : Error,
      buildUrl form_urlencode path params queryParams baseUrl = Throw e)
   <-> baseUrl = None \/ baseUrl = Some "") /\
  ((forall (key : string) (value : ParamValue) (p : nat),
      (key, value) ∈ params ->
      String.substring p (String.length (":" +:+ key)) path <> ":" +:+ key) ->
   buildUrl form_urlencode path params queryParams baseUrl
   = generateUrl form_urlencode path queryParams baseUrl).
Proof.
  split; [apply generateUrl_throws_iff|].
  intros Habsent. unfold buildUrl. f_equal.
  induction params as [|[key value] params IH]; [done|].
  cbn [foldl]. rewrite String_replace_absent.
  - apply IH. intros k v p Hin. apply (Habsent k v p).
    apply elem_of_cons. by right.
  - intros p. apply (Habsent key value p). apply elem_of_cons. by left.
Qed.

End BuildUrlProperties.

Lemma buildUrl_first_occurrence_witness :
  ApiUtils.buildUrl id "/users/:id/friends/:id" [("id", ApiUtils.PNumber 42)]
    None (Some "https://api.example.com")
  = ApiUtils.Return "https://api.example.com/users/42/friends/:id".
Proof.
  refine (eq_trans
            (buildUrl_first_occurrence id "/users/" "/friends/:id" "id"
               (ApiUtils.PNumber 42) None (Some "https://api.example.com")
               _ _) _).
  - intros p Hp.
    do 7 (destruct p as [|p]; [vm_compute; discriminate|]).
    simpl in Hp. lia.
  - reflexivity.
  - reflexivity.
Defined.

Lemma buildUrl_dollar_patterns_witness :
  ApiUtils.buildUrl id "/users/:id" [("id", ApiUtils.PString "$&")]
    None (Some "https://api.example.com")
  = ApiUtils.Return "https://api.example.com/users/:id".
Proof.
  destruct (buildUrl_dollar_patterns id "/users/" "" "id" None
              (Some "https://api.example.com")) as (_ & H & _).
  - intros p Hp.
    do 7 (destruct p as [|p]; [vm_compute; discriminate|]).
    simpl in Hp. lia.
  - exact (eq_trans H eq_refl).
Defined.

Lemma buildUrl_unmatched_witness :
  ApiUtils.buildUrl id "/health" [("id", ApiUtils.PNumber 7)]
    None (Some "https://api.example.com")
  = ApiUtils.Return "https://api.example.com/health".
Proof.
  destruct (buildUrl_unmatched id "/health" [("id", ApiUtils.PNumber 7)]
              None (Some "https://api.example.com")) as (_ & H).
  refine (eq_trans (H _) eq_refl).
  - intros key value p Hin.
    apply list_elem_of_singleton in Hin. injection Hin as -> ->.
    do 8 (destruct p as [|p]; [vm_compute; discriminate|]).
    vm_compute. discriminate.
Defined.

(** * Further properties of the validation functions *)

Section ValidateProperties.
Import Js Validation.

(** X22.  The three entry points agree.  [validateOrThrow] returns the
    data exactly when [validate] succeeds with it; when [validate] fails,
    [validateOrThrow] throws an error that carries the same items and
    [statusCode] 400, with the message of the first item, or
    ["Validation failed"] when there is no item; and [validateAsync]
    gives what [validate] gives wherever the two parsers of the schema
    agree. *)
Theorem validate_entry_points_agree {T : Type} (schema : ZodType T)
    (data : value) :
  (forall parsed : T,
     validate schema data = Success parsed
     <-> validateOrThrow schema data = Returns parsed) /\
  (forall errors : list ValidationErrorItem,
     validate schema data = Failure errors
     <-> exists e : ThrownError,
           validateOrThrow schema data = Throws e /\
           thrown_errors e = errors) /\
  (forall e : ThrownError,
     validateOrThrow schema data = Throws e ->
     thrown_statusCode e = 400 /\
     thrown_message e
       = default "Validation failed" (message <$> head (thrown_errors e))) /\
  (safeParseAsync schema data = safeParse schema data ->
   validateAsync schema data = validate schema data).
Proof.
  unfold validate, validateOrThrow, validateAsync.
  split; [|split; [|split]].
  - intros parsed. destruct (safeParse schema data); split; congruence.
  - intros errors. destruct (safeParse schema data) as [d|issues]; split.
    + discriminate.
    + intros (e & He & _). discriminate.
    + intros [= <-]. eexists. split; reflexivity.
    + intros (e & [= <-] & <-). reflexivity.
  - intros e. destruct (safeParse schema data) as [d|issues]; [discriminate|].
    intros [= <-]. split; [reflexivity|]. simpl.
    by destruct (parseZodError issues).
  - by intros ->.
Qed.

Lemma validate_entry_points_agree_witness :
  validateAsync email_schema (VString "invalid")
  = Failure [ {| field := "email"; message := "Invalid email" |} ] /\
  exists e : ThrownError,
    validateOrThrow email_schema (VString "invalid") = Throws e /\
    thrown_message e = "Invalid email".
Proof.
  destruct (validate_entry_points_agree email_schema (VString "invalid"))
    as (_ & _ & Hthrow & Hasync).
  split.
  - rewrite Hasync; reflexivity.
  - eexists. split; [reflexivity|].
    apply (Hthrow _ eq_refl).
Defined.

Lemma concat_dots (l1 l2 : list string) :
  l1 <> [] -> l2 <> [] ->
  String.concat "." (l1 ++ l2)
  = String.concat "." l1 +:+ "." +:+ String.concat "." l2.
Proof.
  intros H1 H2. induction l1 as [|x l1 IH]; [done|].
  destruct l1 as [|y l1].
  - destruct l2 as [|z l2]; [done|]. reflexivity.
  - change (x +:+ "." +:+ String.concat "." ((y :: l1) ++ l2)
            = (x +:+ "." +:+ String.concat "." (y :: l1))
              +:+ "." +:+ String.concat "." l2).
    rewrite IH by done.
    generalize (String.concat "." (y :: l1)) as a.
    generalize (String.concat "." l2) as b. intros b a.
    clear. induction x as [|c x IHx]; [done|].
    change (String c (x +:+ "." +:+ a +:+ "." +:+ b)
            = String c ((x +:+ "." +:+ a) +:+ "." +:+ b)).
    by rewrite IHx.
Qed.

(** X23.  The field of an issue is built from its path by joining: the
    empty path gives the empty field, a path of one name gives the name,
    and the field of a path made of two parts is the field of the first,
    a dot, and the field of the second.  The field does not tell a number
    from the name that spells it, nor a name with a dot from two names. *)
Theorem join_path_fields :
  join_path [] = "" /\
  (forall s : string, join_path [Name s] = s) /\
  (forall p q : list PathSegment,
     p <> [] -> q <> [] ->
     join_path (p ++ q) = join_path p +:+ "." +:+ join_path q) /\
  (forall n : Z, join_path [Index n] = join_path [Name (pretty n)]) /\
  (forall a b : string,
     join_path [Name (a +:+ "." +:+ b)] = join_path [Name a; Name b]).
Proof.
  split; [done|]. split; [done|]. split; [|split; done].
  intros p q Hp Hq. unfold join_path. rewrite map_app.
  apply concat_dots; by destruct p, q.
Qed.

Lemma join_path_fields_witness :
  join_path ([Name "body"; Name "items"] ++ [Index 0; Name "id"])
  = "body.items" +:+ "." +:+ "0.id".
Proof.
  destruct join_path_fields as (_ & _ & H & _).
  exact (eq_trans
           (H [Name "body"; Name "items"] [Index 0; Name "id"]
              ltac:(discriminate) ltac:(discriminate))
           eq_refl).
Defined.

(** X24.  When the parser rejects, [validateMiddleware] leaves the
    request as it was.  What it does with the thrown value depends on an
    [errors] array alone.  A value without one goes to [next] as it is.
    A [ZodError] goes to [next] as a [ValidationError] named
    ["ValidationError"], with the code ["VALIDATION_ERROR"] and the
    message of the first issue, or ["Validation failed"] when the error
    has no issue.  Any other value with an [errors] array is handled as a
    [ZodError] when every element is an issue; when one element is not,
    the middleware does not call [next] at all. *)
Theorem validateMiddleware_rejected (schema : AnyZodObject) (req : Request)
    (error : Exception) :
  parseAsync schema (dataToValidate schema req) = Rejected error ->
  (validateMiddleware schema req).1 = req /\
  match error with
  | ZodError issues =>
      exists e : ValidationError,
        (validateMiddleware schema req).2 = NextValidationError e /\
        name e = "ValidationError" /\
        code e = "VALIDATION_ERROR" /\
        error_message e
          = default "Validation failed" (issue_message <$> head issues)
  | OtherError _ =>
      (validateMiddleware schema req).2 = NextException error
  | ErrorsArray elements =>
      (None ∈ elements ->
       (validateMiddleware schema req).2 = NextNotCalled) /\
      (forall issues : list ZodIssue,
         elements = Some <$> issues ->
         exists e : ValidationError,
           (validateMiddleware schema req).2 = NextValidationError e /\
           name e = "ValidationError" /\
           code e = "VALIDATION_ERROR" /\
           errors e = parseZodError issues /\
           error_message e
             = default "Validation failed" (issue_message <$> head issues))
  end.
Proof.
  intros Hparse. unfold validateMiddleware. rewrite Hparse.
  destruct error as [issues|description|elements].
  - split; [done|]. eexists. split; [reflexivity|].
    split; [done|]. split; [done|]. simpl. by destruct issues.
  - done.
  - unfold parseZodError_elements. split; [|split].
    + by destruct (mapM id elements).
    + intros Hin.
      assert (mapM id elements = None) as ->; [|done].
      apply mapM_None, Exists_exists. by exists None.
    + intros issues ->.
      rewrite (mapM_fmap_Some id Some issues) by done.
      eexists. split; [reflexivity|].
      split; [done|]. split; [done|]. split; [done|].
      simpl. by destruct issues.
Qed.

Lemma validateMiddleware_rejected_witness :
  ((validateMiddleware rejecting_schema example_request).1 = example_request /\
   exists e : ValidationError,
     (validateMiddleware rejecting_schema example_request).2
       = NextValidationError e /\
     error_message e = "Invalid email") /\
  (validateMiddleware aggregate_schema example_request).1 = example_request /\
  (validateMiddleware aggregate_schema example_request).2 = NextNotCalled.
Proof.
  split.
  - destruct (validateMiddleware_rejected rejecting_schema example_request
                (ZodError
                   [ {| path := [Name "body"; Name "email"];
                        issue_message := "Invalid email" |};
                     {| path := [Name "body"; Name "tags"; Index 0];
                        issue_message := "Required" |} ]))
      as (Hreq & e & Hnext & _ & _ & Hmsg).
    + reflexivity.
    + split; [exact Hreq|]. exists e. split; [exact Hnext|exact Hmsg].
  - destruct (validateMiddleware_rejected aggregate_schema example_request
                (ErrorsArray [None]))
      as (Hreq & Hthrown & _).
    + reflexivity.
    + split; [exact Hreq|]. apply Hthrown. constructor.
Defined.

End ValidateProperties.
